(** * Parallel summation: a shallow embedding of [main.cpp]

    The program sums a [std::vector<int>] four ways: a sequential scan, and
    three multi-threaded strategies that split the index range into chunks,
    let each worker thread sum its chunk, and combine the local sums under a
    mutex, with an atomic fetch-and-add, or through a vector of per-thread
    slots that the main thread adds up after joining.

    Data: [int] is a 32-bit two's complement integer, [size_t] a 64-bit
    unsigned integer; both are carried by [Z] with the wrap-around written
    out.  A vector is a [list Z] read by index, an out-of-range read being a
    fault.  The threads are a small-step machine: a configuration holds the
    shared memory and one program counter per thread, and a schedule picks
    which thread moves next. *)

From Stdlib Require Import ZArith Lia Ascii String.
From stdpp Require Import base list strings.

Local Open Scope Z_scope.

(** ** Machine integers *)

Definition int_modulus : Z := 2 ^ 32.
Definition int_min : Z := - 2 ^ 31.
Definition int_max : Z := 2 ^ 31 - 1.
Definition size_modulus : Z := 2 ^ 64.

(** The values of type [int] and of type [size_t]. *)
Definition int_val (z : Z) : Prop := int_min <= z <= int_max.
Definition size_val (z : Z) : Prop := 0 <= z < size_modulus.

(** Reduction of a mathematical integer to the [int] that represents it. *)
Definition wrap_int (z : Z) : Z := (z - int_min) mod int_modulus + int_min.

(** Reduction modulo [2^64], the arithmetic of [size_t]. *)
Definition wrap_size (z : Z) : Z := z mod size_modulus.

(** [a + b] on [int]. *)
Definition int_add (a b : Z) : Z := wrap_int (a + b).

(** ** Faults *)

(** The two operations of the program whose behaviour C++ leaves undefined.
    The embedding stops at the first one and reports it; it says nothing
    of what a compiled program does from there. *)
Inductive fault : Type :=
| OutOfBounds    (* a vector element read or written outside [0, size) *)
| DivideByZero.  (* an integer division by zero *)

Inductive result (A : Type) : Type :=
| Ok (a : A)
| Fault (f : fault).
Arguments Ok {A} a.
Arguments Fault {A} f.

(** [v[i]] on a vector, with [i] a [size_t]. *)
Definition index (v : list Z) (i : Z) : result Z :=
  if (0 <=? i) && (i <? Z.of_nat (length v))
  then match v !! Z.to_nat i with
       | Some x => Ok x
       | None => Fault OutOfBounds
       end
  else Fault OutOfBounds.

(** [v.size()]. *)
Definition size (v : list Z) : Z := Z.of_nat (length v).

(** ** The sequential baseline *)

(** The loop of [single_thread_sum]: [cnt] iterations are left, the loop
    variable is [i] and the accumulator is [sum]. *)
Fixpoint sum_loop (arr : list Z) (cnt : nat) (i sum : Z) : result Z :=
  match cnt with
  | O => Ok sum
  | S cnt' =>
      match index arr i with
      | Ok x => sum_loop arr cnt' (wrap_size (i + 1)) (int_add sum x)
      | Fault f => Fault f
      end
  end.

Definition single_thread_sum (arr : list Z) : result Z :=
  sum_loop arr (length arr) 0 0.

(** ** The partitioner *)

(** The first four lines of every worker: the bounds [(start, end)] of the
    chunk of thread [thread_idx], in [size_t] arithmetic. *)
Definition chunk_bounds (n num_threads thread_idx : Z) : result (Z * Z) :=
  if num_threads =? 0 then Fault DivideByZero
  else
    let chunk_size := n / num_threads in
    let start := wrap_size (thread_idx * chunk_size) in
    let end_ :=
      if thread_idx =? wrap_size (num_threads - 1) then n
      else wrap_size ((thread_idx + 1) * chunk_size) in
    Ok (start, end_).

(** Index [x] belongs to the chunk of thread [i]. *)
Definition in_chunk (n num_threads i x : Z) : Prop :=
  exists s e, chunk_bounds n num_threads i = Ok (s, e) /\ s <= x < e.

(** ** The threads *)

(** The three multi-threaded strategies. *)
Inductive strategy : Type := Lock | Atomic | Reduce.

#[global] Instance strategy_eq_dec : EqDecision strategy.
Proof. solve_decision. Defined.

(** Program points of a worker thread.  The thread-private variables live
    in the program point; everything else is in the shared memory. *)
Inductive pc : Type :=
| WEntry                          (* the thread function is entered *)
| WLoop (i end_ local_sum : Z)    (* head of [for (i = start; i < end; ++i)] *)
| WAcquire (local_sum : Z)        (* before [std::lock_guard lock(mtx)] *)
| WLoad (local_sum : Z)           (* mutex held, before reading [sum] *)
| WStore (v : Z)                  (* mutex held, before writing [sum] *)
| WRelease                        (* end of scope: the guard unlocks *)
| WFetchAdd (local_sum : Z)       (* before [sum.fetch_add(local_sum)] *)
| WSlotLoop (i end_ : Z)          (* head of the loop of [thread_sum_reduce] *)
| WDone.                          (* the thread function has returned *)

#[global] Instance pc_eq_dec : EqDecision pc.
Proof. solve_decision. Defined.

(** A spawned thread: the index it was given and where it stands. *)
Record thread : Type := { t_idx : Z; t_pc : pc }.

(** Program points of the calling thread inside [multi_thread_sum_*]. *)
Inductive main_pc : Type :=
| MEntry                (* the function is entered *)
| MSpawn (i : Z)        (* head of the spawning loop *)
| MJoin (j : nat)       (* about to join the [j]-th element of [threads] *)
| MReturn (v : Z).      (* returned [v] *)

(** A configuration: the memory the threads share and the threads. *)
Record config : Type := {
  c_arr : list Z;            (* the elements of [arr] *)
  c_sum : Z;                 (* [int sum] or [std::atomic<int> sum] *)
  c_mtx : option nat;        (* [std::mutex mtx]: the thread that holds it *)
  c_partial : list Z;        (* [partial_sums] *)
  c_main : main_pc;
  c_threads : list thread;   (* [threads], in spawning order *)
  c_fault : option fault     (* set once a thread has faulted *)
}.

Definition with_sum (v : Z) (c : config) : config :=
  {| c_arr := c_arr c; c_sum := v; c_mtx := c_mtx c; c_partial := c_partial c;
     c_main := c_main c; c_threads := c_threads c; c_fault := c_fault c |}.

Definition with_mtx (m : option nat) (c : config) : config :=
  {| c_arr := c_arr c; c_sum := c_sum c; c_mtx := m; c_partial := c_partial c;
     c_main := c_main c; c_threads := c_threads c; c_fault := c_fault c |}.

Definition with_partial (l : list Z) (c : config) : config :=
  {| c_arr := c_arr c; c_sum := c_sum c; c_mtx := c_mtx c; c_partial := l;
     c_main := c_main c; c_threads := c_threads c; c_fault := c_fault c |}.

Definition with_main (m : main_pc) (c : config) : config :=
  {| c_arr := c_arr c; c_sum := c_sum c; c_mtx := c_mtx c; c_partial := c_partial c;
     c_main := m; c_threads := c_threads c; c_fault := c_fault c |}.

Definition with_threads (l : list thread) (c : config) : config :=
  {| c_arr := c_arr c; c_sum := c_sum c; c_mtx := c_mtx c; c_partial := c_partial c;
     c_main := c_main c; c_threads := l; c_fault := c_fault c |}.

(** A fault stops the whole process. *)
Definition crash (f : fault) (c : config) : config :=
  {| c_arr := c_arr c; c_sum := c_sum c; c_mtx := c_mtx c; c_partial := c_partial c;
     c_main := c_main c; c_threads := c_threads c; c_fault := Some f |}.

(** Thread number [k] moves to program point [p]. *)
Definition goto (k : nat) (t : thread) (p : pc) (c : config) : config :=
  with_threads (<[k := {| t_idx := t_idx t; t_pc := p |}]> (c_threads c)) c.

(** [v[i] = x] on a vector. *)
Definition store (v : list Z) (i x : Z) : result (list Z) :=
  if (0 <=? i) && (i <? Z.of_nat (length v))
  then Ok (<[Z.to_nat i := x]> v)
  else Fault OutOfBounds.

(** One step of thread number [k] running [thread_sum_lock]; [None] when
    the thread cannot move (it waits for the mutex, or it has returned). *)
Definition thread_sum_lock (num_threads : Z) (k : nat) (t : thread) (c : config)
  : option config :=
  match t_pc t with
  | WEntry =>
      match chunk_bounds (size (c_arr c)) num_threads (t_idx t) with
      | Ok (start, end_) => Some (goto k t (WLoop start end_ 0) c)
      | Fault f => Some (crash f c)
      end
  | WLoop i end_ local_sum =>
      if i <? end_ then
        match index (c_arr c) i with
        | Ok x => Some (goto k t (WLoop (wrap_size (i + 1)) end_ (int_add local_sum x)) c)
        | Fault f => Some (crash f c)
        end
      else Some (goto k t (WAcquire local_sum) c)
  | WAcquire local_sum =>
      match c_mtx c with
      | None => Some (goto k t (WLoad local_sum) (with_mtx (Some k) c))
      | Some _ => None
      end
  | WLoad local_sum => Some (goto k t (WStore (int_add (c_sum c) local_sum)) c)
  | WStore v => Some (goto k t WRelease (with_sum v c))
  | WRelease => Some (goto k t WDone (with_mtx None c))
  | _ => None
  end.

(** One step of thread number [k] running [thread_sum_atomic]. *)
Definition thread_sum_atomic (num_threads : Z) (k : nat) (t : thread) (c : config)
  : option config :=
  match t_pc t with
  | WEntry =>
      match chunk_bounds (size (c_arr c)) num_threads (t_idx t) with
      | Ok (start, end_) => Some (goto k t (WLoop start end_ 0) c)
      | Fault f => Some (crash f c)
      end
  | WLoop i end_ local_sum =>
      if i <? end_ then
        match index (c_arr c) i with
        | Ok x => Some (goto k t (WLoop (wrap_size (i + 1)) end_ (int_add local_sum x)) c)
        | Fault f => Some (crash f c)
        end
      else Some (goto k t (WFetchAdd local_sum) c)
  | WFetchAdd local_sum =>
      Some (goto k t WDone (with_sum (int_add (c_sum c) local_sum) c))
  | _ => None
  end.

(** One step of thread number [k] running [thread_sum_reduce]; its
    accumulator is the slot [partial_sums[thread_idx]] it was handed. *)
Definition thread_sum_reduce (num_threads : Z) (k : nat) (t : thread) (c : config)
  : option config :=
  match t_pc t with
  | WEntry =>
      match chunk_bounds (size (c_arr c)) num_threads (t_idx t) with
      | Ok (start, end_) =>
          match store (c_partial c) (t_idx t) 0 with
          | Ok l => Some (goto k t (WSlotLoop start end_) (with_partial l c))
          | Fault f => Some (crash f c)
          end
      | Fault f => Some (crash f c)
      end
  | WSlotLoop i end_ =>
      if i <? end_ then
        match index (c_arr c) i, index (c_partial c) (t_idx t) with
        | Ok x, Ok partial_sum =>
            match store (c_partial c) (t_idx t) (int_add partial_sum x) with
            | Ok l => Some (goto k t (WSlotLoop (wrap_size (i + 1)) end_) (with_partial l c))
            | Fault f => Some (crash f c)
            end
        | Fault f, _ => Some (crash f c)
        | _, Fault f => Some (crash f c)
        end
      else Some (goto k t WDone c)
  | _ => None
  end.

Definition worker_step (s : strategy) : Z -> nat -> thread -> config -> option config :=
  match s with
  | Lock => thread_sum_lock
  | Atomic => thread_sum_atomic
  | Reduce => thread_sum_reduce
  end.

(** [threads.emplace_back(..., i)]: a new thread, given index [i]. *)
Definition spawn (i : Z) (c : config) : config :=
  with_threads (c_threads c ++ [{| t_idx := i; t_pc := WEntry |}]) c.

(** [n / num_threads] computed by the calling thread; with a divisor of
    zero the behaviour is undefined, which the embedding reports. *)
Definition size_div (n d : Z) : result Z :=
  if d =? 0 then Fault DivideByZero else Ok (n / d).

(** The spawning and joining loops, shared by the three strategies:
    [ret c] is what the function returns once every thread is joined. *)
Definition spawn_join (ret : config -> Z) (num_threads : Z) (c : config)
  : option config :=
  match c_main c with
  | MSpawn i =>
      if i <? num_threads
      then Some (with_main (MSpawn (wrap_size (i + 1))) (spawn i c))
      else Some (with_main (MJoin 0) c)
  | MJoin j =>
      match c_threads c !! j with
      | Some t =>
          match t_pc t with
          | WDone => Some (with_main (MJoin (S j)) c)
          | _ => None
          end
      | None => Some (with_main (MReturn (ret c)) c)
      end
  | _ => None
  end.

(** One step of the thread that called [multi_thread_sum_lock]. *)
Definition main_lock (num_threads : Z) (c : config) : option config :=
  match c_main c with
  | MEntry => Some (with_main (MSpawn 0) (with_sum 0 (with_mtx None c)))
  | _ => spawn_join c_sum num_threads c
  end.

(** One step of the thread that called [multi_thread_sum_atomic].  The
    quotient [chunk_size] computed on entry is never used; with
    [num_threads = 0] computing it is undefined behaviour, reported as a
    fault, whatever a compiled program then does. *)
Definition main_atomic (num_threads : Z) (c : config) : option config :=
  match c_main c with
  | MEntry =>
      match size_div (size (c_arr c)) num_threads with
      | Ok _ => Some (with_main (MSpawn 0) (with_sum 0 c))
      | Fault f => Some (crash f c)
      end
  | _ => spawn_join c_sum num_threads c
  end.

(** The closing loop of [multi_thread_sum_reduce], run by the calling
    thread alone once all workers are joined. *)
Definition total_of (partial_sums : list Z) : Z :=
  fold_left int_add partial_sums 0.

(** One step of the thread that called [multi_thread_sum_reduce]; as in
    [multi_thread_sum_atomic], the quotient computed on entry is never used
    and a zero divisor is reported as a fault. *)
Definition main_reduce (num_threads : Z) (c : config) : option config :=
  match c_main c with
  | MEntry =>
      let c1 := with_partial (replicate (Z.to_nat num_threads) 0) c in
      match size_div (size (c_arr c)) num_threads with
      | Ok _ => Some (with_main (MSpawn 0) c1)
      | Fault f => Some (crash f c1)
      end
  | _ => spawn_join (fun c => total_of (c_partial c)) num_threads c
  end.

Definition main_step (s : strategy) : Z -> config -> option config :=
  match s with
  | Lock => main_lock
  | Atomic => main_atomic
  | Reduce => main_reduce
  end.

(** Who moves: the calling thread or the [k]-th spawned thread. *)
Inductive tid : Type := Main | Worker (k : nat).

(** One step of the process, thread [who] moving; [None] when [who] is not
    spawned yet, blocked or finished, or when the process has faulted. *)
Definition step (s : strategy) (num_threads : Z) (c : config) (who : tid)
  : option config :=
  match c_fault c with
  | Some _ => None
  | None =>
      match who with
      | Main => main_step s num_threads c
      | Worker k =>
          match c_threads c !! k with
          | Some t => worker_step s num_threads k t c
          | None => None
          end
      end
  end.

(** The configuration in which a strategy is called on [arr]. *)
Definition init (arr : list Z) : config :=
  {| c_arr := arr; c_sum := 0; c_mtx := None; c_partial := [];
     c_main := MEntry; c_threads := []; c_fault := None |}.

(** Running under a schedule: a thread that cannot move when it is picked
    is skipped. *)
Definition run (s : strategy) (num_threads : Z) (sched : list tid) (c : config)
  : config :=
  fold_left (fun c who => default c (step s num_threads c who)) sched c.

(** What the caller observes: nothing yet, a fault, or the returned sum. *)
Definition outcome (c : config) : option (result Z) :=
  match c_fault c with
  | Some f => Some (Fault f)
  | None =>
      match c_main c with
      | MReturn v => Some (Ok v)
      | _ => None
      end
  end.

Definition multi_thread_sum (s : strategy) (arr : list Z) (num_threads : Z)
    (sched : list tid) : option (result Z) :=
  outcome (run s num_threads sched (init arr)).

Definition multi_thread_sum_lock := multi_thread_sum Lock.
Definition multi_thread_sum_atomic := multi_thread_sum Atomic.
Definition multi_thread_sum_reduce := multi_thread_sum Reduce.

(** The configurations a call can reach. *)
Definition reachable (s : strategy) (arr : list Z) (num_threads : Z) (c : config) : Prop :=
  exists sched, c = run s num_threads sched (init arr).

(** The array index a worker reads in its next step, if it reads one. *)
Definition next_read (p : pc) : option Z :=
  match p with
  | WLoop i end_ _ | WSlotLoop i end_ => if i <? end_ then Some i else None
  | _ => None
  end.

(** ** Command-line arguments *)

(** The exceptions of [std::stoi]. *)
Inductive exn : Type := InvalidArgument | OutOfRange.

Definition is_space (a : ascii) : bool :=
  let n := Z.of_nat (nat_of_ascii a) in
  (n =? 32) || ((9 <=? n) && (n <=? 13)).

Definition digit_of (a : ascii) : option Z :=
  let n := Z.of_nat (nat_of_ascii a) in
  if (48 <=? n) && (n <=? 57) then Some (n - 48) else None.

Fixpoint skip_space (s : string) : string :=
  match s with
  | String a r => if is_space a then skip_space r else s
  | EmptyString => s
  end.

(** The value of the longest prefix of decimal digits; [acc] is [None]
    until a digit is read. *)
Fixpoint digits (s : string) (acc : option Z) : option Z :=
  match s with
  | String a r =>
      match digit_of a with
      | Some d => digits r (Some (10 * default 0 acc + d))
      | None => acc
      end
  | EmptyString => acc
  end.

(** [std::stoi(str)] of the C++ library, base 10: leading white space, an
    optional sign, then as many digits as there are; it throws when there
    is no digit or when the value is not an [int]. *)
Definition stoi (s : string) : exn + Z :=
  let s1 := skip_space s in
  let '(negative, s2) :=
    match s1 with
    | String "-" r => (true, r)
    | String "+" r => (false, r)
    | _ => (false, s1)
    end in
  match digits s2 None with
  | None => inl InvalidArgument
  | Some v =>
      let v := if negative then - v else v in
      if (int_min <=? v) && (v <=? int_max) then inr v else inl OutOfRange
  end.

(** What [parse_args] asks of [zen::cmd_args], whose code is in the
    [kaizen.h] library. *)
Record cmd_args : Type := {
  is_present : string -> bool;
  get_options : string -> list string
}.

(** The arguments of the [zen::log] call in [parse_args]. *)
Definition warning : list string :=
  ["Warning: "; "Missing required arguments. Using default values."]%string.

(** How a call of [parse_args] ends. *)
Inductive parsed : Type :=
| Returned (log : list string) (size threads : Z)
| Thrown (e : exn)          (* an exception leaves the function *)
| Undefined (f : fault).    (* [[0]] on an empty vector of options *)

(** [parse_args]; [hardware_concurrency] is what
    [std::thread::hardware_concurrency()] returns, an [unsigned int] that
    the pair stores as an [int]. *)
Definition parse_args (args : cmd_args) (hardware_concurrency : Z) : parsed :=
  if negb (is_present args "--size") || negb (is_present args "--thread")
  then Returned warning 1000000 (wrap_int hardware_concurrency)
  else
    match get_options args "--size" with
    | [] => Undefined OutOfBounds
    | o :: _ =>
        match stoi o with
        | inl e => Thrown e
        | inr size =>
            match get_options args "--thread" with
            | [] => Undefined OutOfBounds
            | o' :: _ =>
                match stoi o' with
                | inl e => Thrown e
                | inr threads => Returned [] size threads
                end
            end
        end
    end.

(** ** Notions of the specification *)

(** The mathematical sum of a list. *)
Definition sum_of (l : list Z) : Z := foldr Z.add 0 l.

(** The mathematical sum of [arr[a], ..., arr[b-1]]. *)
Definition range_sum (arr : list Z) (a b : Z) : Z :=
  sum_of (take (Z.to_nat (b - a)) (drop (Z.to_nat a) arr)).

(** The mathematical sum of the chunk of thread [idx]. *)
Definition chunk_total (arr : list Z) (num_threads idx : Z) : Z :=
  match chunk_bounds (size arr) num_threads idx with
  | Ok (s, e) => range_sum arr s e
  | Fault _ => 0
  end.

(** The local sum thread [idx] ends with. *)
Definition local_sum_of (arr : list Z) (num_threads idx : Z) : Z :=
  wrap_int (chunk_total arr num_threads idx).

(** The program points at which a thread holds the mutex. *)
Definition holds_mtx (p : pc) : bool :=
  match p with
  | WLoad _ | WStore _ | WRelease => true
  | _ => false
  end.

(** The program points at which a thread has added its local sum to the
    shared total. *)
Definition committed (p : pc) : bool :=
  match p with
  | WRelease | WDone => true
  | _ => false
  end.

Definition contribution (arr : list Z) (num_threads : Z) (t : thread) : Z :=
  if committed (t_pc t) then local_sum_of arr num_threads (t_idx t) else 0.

(** An upper bound on the steps a thread has left. *)
Definition pc_work (n : Z) (p : pc) : Z :=
  match p with
  | WEntry => n + 6
  | WLoop i e _ => Z.max 0 (e - i) + 5
  | WAcquire _ => 4
  | WLoad _ => 3
  | WStore _ => 2
  | WRelease => 1
  | WFetchAdd _ => 1
  | WSlotLoop i e => Z.max 0 (e - i) + 1
  | WDone => 0
  end.

Definition main_work (num_threads : Z) (m : main_pc) : Z :=
  match m with
  | MEntry => 2 * num_threads + 3
  | MSpawn i => (num_threads - i) + num_threads + 2
  | MJoin j => num_threads - Z.of_nat j + 1
  | MReturn _ => 0
  end.

(** An upper bound on the steps a configuration has left. *)
Definition work (num_threads : Z) (c : config) : Z :=
  main_work num_threads (c_main c)
  + sum_of ((fun t => pc_work (size (c_arr c)) (t_pc t)) <$> c_threads c)
  + (num_threads - Z.of_nat (length (c_threads c))) * (size (c_arr c) + 7).

Section Invariant.

Variables (s : strategy) (arr : list Z) (num_threads : Z).

(** What holds of a spawned thread at each program point. *)
Definition pc_ok (c : config) (t : thread) : Prop :=
  match t_pc t with
  | WEntry => True
  | WLoop i e local_sum =>
      s <> Reduce /\
      exists st, chunk_bounds (size arr) num_threads (t_idx t) = Ok (st, e) /\
                 st <= i <= e /\ local_sum = wrap_int (range_sum arr st i)
  | WAcquire local_sum | WLoad local_sum =>
      s = Lock /\ local_sum = local_sum_of arr num_threads (t_idx t)
  | WStore v =>
      s = Lock /\ v = int_add (c_sum c) (local_sum_of arr num_threads (t_idx t))
  | WRelease => s = Lock
  | WFetchAdd local_sum =>
      s = Atomic /\ local_sum = local_sum_of arr num_threads (t_idx t)
  | WSlotLoop i e =>
      s = Reduce /\
      exists st, chunk_bounds (size arr) num_threads (t_idx t) = Ok (st, e) /\
                 st <= i <= e /\
                 c_partial c !! Z.to_nat (t_idx t) = Some (wrap_int (range_sum arr st i))
  | WDone =>
      s = Reduce ->
      c_partial c !! Z.to_nat (t_idx t) = Some (local_sum_of arr num_threads (t_idx t))
  end.

(** What holds at each program point of the calling thread. *)
Definition main_ok (c : config) : Prop :=
  match c_main c with
  | MEntry => c_threads c = [] /\ c_sum c = 0 /\ c_mtx c = None
  | MSpawn i => i = Z.of_nat (length (c_threads c))
  | MJoin j =>
      Z.of_nat (length (c_threads c)) = num_threads /\
      (j <= length (c_threads c))%nat /\
      forall k t, (k < j)%nat -> c_threads c !! k = Some t -> t_pc t = WDone
  | MReturn v => v = wrap_int (sum_of arr)
  end.

(** The invariant of the three strategies. *)
Record invariant (c : config) : Prop := {
  inv_fault : c_fault c = None;
  inv_arr : c_arr c = arr;
  inv_count : Z.of_nat (length (c_threads c)) <= num_threads;
  inv_threads : forall k t, c_threads c !! k = Some t ->
                            t_idx t = Z.of_nat k /\ pc_ok c t;
  inv_main : main_ok c;
  inv_holder : forall k t, c_threads c !! k = Some t ->
                           holds_mtx (t_pc t) = true -> c_mtx c = Some k;
  inv_owner : forall k, c_mtx c = Some k ->
                        exists t, c_threads c !! k = Some t /\ holds_mtx (t_pc t) = true;
  inv_sum : s <> Reduce ->
            c_sum c = wrap_int (sum_of (contribution arr num_threads <$> c_threads c));
  inv_partial : s = Reduce -> c_main c <> MEntry ->
                Z.of_nat (length (c_partial c)) = num_threads
}.

End Invariant.

(** How far a worker has come in its chunk of an array of length [n]:
    [-1] before its loop, the loop variable inside it, [n] after it. *)
Definition reached (n : Z) (p : pc) : Z :=
  match p with
  | WEntry => -1
  | WLoop i _ _ | WSlotLoop i _ => i
  | _ => n
  end.

(** The same for the [k]-th thread, [-1] as long as it is not spawned. *)
Definition position (k : nat) (c : config) : Z :=
  match c_threads c !! k with
  | Some t => reached (size (c_arr c)) (t_pc t)
  | None => -1
  end.

(** The number of steps a schedule makes from [c]: the picks of threads
    that cannot move do not count. *)
Fixpoint moves (s : strategy) (num_threads : Z) (sched : list tid) (c : config)
  : nat :=
  match sched with
  | [] => O
  | who :: rest =>
      match step s num_threads c who with
      | Some c' => S (moves s num_threads rest c')
      | None => moves s num_threads rest c
      end
  end.

(** ** Inputs of the examples *)

(** A schedule that lets the calling thread and then each of the first
    [workers] threads move once, [rounds] times over. *)
Definition round_robin (workers rounds : nat) : list tid :=
  concat (replicate rounds (Main :: (Worker <$> seq 0 workers))).

(** A command line without options. *)
Definition no_options : cmd_args :=
  {| is_present := fun _ => false; get_options := fun _ => [] |}.

(** The command line [--size abc --thread 4]: both options are present,
    [--size] with the value [abc] and [--thread] with the value [4]. *)
Definition size_abc_thread_4 : cmd_args :=
  {| is_present := fun o => String.eqb o "--size" || String.eqb o "--thread";
     get_options := fun o =>
       if String.eqb o "--size" then ["abc"%string]
       else if String.eqb o "--thread" then ["4"%string]
       else [] |}.

(** * Properties *)

(** ** Machine arithmetic *)

Lemma wrap_int_range z : int_val (wrap_int z).
Proof.
  unfold int_val, wrap_int, int_min, int_max, int_modulus.
  pose proof (Z.mod_pos_bound (z - - 2 ^ 31) (2 ^ 32)). lia.
Qed.

Lemma wrap_int_id z : int_val z -> wrap_int z = z.
Proof.
  unfold int_val, wrap_int, int_min, int_max, int_modulus. intros Hz.
  rewrite Z.mod_small; lia.
Qed.

Lemma wrap_int_add_l a b : wrap_int (wrap_int a + b) = wrap_int (a + b).
Proof.
  unfold wrap_int. f_equal.
  replace ((a - int_min) mod int_modulus + int_min + b - int_min)
    with ((a - int_min) mod int_modulus + b) by lia.
  rewrite Zplus_mod_idemp_l. f_equal. lia.
Qed.

Lemma wrap_int_add_r a b : wrap_int (a + wrap_int b) = wrap_int (a + b).
Proof. rewrite (Z.add_comm a), wrap_int_add_l. f_equal. lia. Qed.

Lemma wrap_int_idem z : wrap_int (wrap_int z) = wrap_int z.
Proof. apply wrap_int_id, wrap_int_range. Qed.

Lemma wrap_size_id z : size_val z -> wrap_size z = z.
Proof. unfold size_val, wrap_size. intros Hz. apply Z.mod_small. lia. Qed.

(** ** The partition *)

Section Partition.

Variables n T : Z.
Hypothesis Hn : size_val n.
Hypothesis HT : size_val T.
Hypothesis HT1 : 1 <= T.

Lemma chunk_size_bound : 0 <= n / T /\ T * (n / T) <= n.
Proof using Hn HT1.
  destruct Hn as [Hn0 _]. split.
  - apply Z.div_pos; lia.
  - apply Z.mul_div_le. lia.
Qed.

(** Below [T] the [size_t] arithmetic of the bounds never wraps. *)
Lemma chunk_bounds_eq i :
  0 <= i < T ->
  chunk_bounds n T i =
    Ok (i * (n / T), if i =? T - 1 then n else (i + 1) * (n / T)).
Proof using Hn HT HT1.
  intros Hi. unfold chunk_bounds.
  destruct (Z.eqb_spec T 0) as [?|_]; [lia|].
  pose proof chunk_size_bound as [Hq Hle].
  assert (Hi1 : i * (n / T) <= (i + 1) * (n / T)) by nia.
  assert (Hi2 : (i + 1) * (n / T) <= T * (n / T)) by nia.
  unfold size_val in *.
  rewrite (wrap_size_id (T - 1)) by (unfold size_val; lia).
  rewrite (wrap_size_id (i * (n / T))) by (unfold size_val; nia).
  destruct (i =? T - 1); [done|].
  rewrite wrap_size_id by (unfold size_val; nia). done.
Qed.

Lemma chunk_bounds_range i st e :
  0 <= i < T -> chunk_bounds n T i = Ok (st, e) -> 0 <= st <= e /\ e <= n.
Proof using Hn HT HT1.
  intros Hi. rewrite chunk_bounds_eq by done. intros [= <- <-].
  pose proof chunk_size_bound as [Hq Hle].
  destruct (Z.eqb_spec i (T - 1)); nia.
Qed.

Lemma in_chunk_iff i x :
  0 <= i < T ->
  in_chunk n T i x <->
  i * (n / T) <= x < (if i =? T - 1 then n else (i + 1) * (n / T)).
Proof using Hn HT HT1.
  intros Hi. unfold in_chunk. rewrite chunk_bounds_eq by done. split.
  - intros (st & e & [= <- <-] & Hx). done.
  - intros Hx. eauto.
Qed.

Lemma chunks_within i x : 0 <= i < T -> in_chunk n T i x -> 0 <= x < n.
Proof using Hn HT HT1.
  intros Hi (st & e & Hb & Hx).
  destruct (chunk_bounds_range i st e Hi Hb). lia.
Qed.

Lemma chunks_disjoint i j x :
  0 <= i < T -> 0 <= j < T -> in_chunk n T i x -> in_chunk n T j x -> i = j.
Proof using Hn HT HT1.
  intros Hi Hj. rewrite !in_chunk_iff by done.
  pose proof chunk_size_bound as [Hq Hle].
  destruct (Z.eqb_spec i (T - 1)), (Z.eqb_spec j (T - 1)); intros Hxi Hxj; nia.
Qed.

Lemma chunks_cover x : 0 <= x < n -> exists i, 0 <= i < T /\ in_chunk n T i x.
Proof using Hn HT HT1.
  intros Hx. pose proof chunk_size_bound as [Hq Hle].
  destruct (Z.eq_dec (n / T) 0) as [H0|H0].
  - exists (T - 1). split; [lia|]. apply in_chunk_iff; [lia|].
    rewrite Z.eqb_refl, H0. lia.
  - assert (Hpos : 0 < n / T) by lia.
    pose proof (Z.mul_div_le x (n / T) Hpos) as Hlo.
    pose proof (Z.mul_succ_div_gt x (n / T) Hpos) as Hhi.
    assert (0 <= x / (n / T)) by (apply Z.div_pos; lia).
    destruct (Z_lt_le_dec (x / (n / T)) (T - 1)) as [Hlt|Hge].
    + exists (x / (n / T)). split; [lia|]. apply in_chunk_iff; [lia|].
      destruct (Z.eqb_spec (x / (n / T)) (T - 1)); lia.
    + exists (T - 1). split; [lia|]. apply in_chunk_iff; [lia|].
      rewrite Z.eqb_refl. nia.
Qed.

Lemma last_chunk_end : exists st, chunk_bounds n T (T - 1) = Ok (st, n).
Proof using Hn HT HT1.
  rewrite chunk_bounds_eq by lia. rewrite Z.eqb_refl. eauto.
Qed.

End Partition.

(** ** Sums over index ranges *)

Lemma sum_of_app l1 l2 : sum_of (l1 ++ l2) = sum_of l1 + sum_of l2.
Proof. induction l1 as [|x l1 IH]; simpl; [done|]. rewrite IH. lia. Qed.

Lemma sum_of_insert (l : list Z) k x y :
  l !! k = Some x -> sum_of (<[k := y]> l) = sum_of l - x + y.
Proof.
  revert k. induction l as [|z l IH]; intros [|k] Hk; simplify_eq/=; [lia|].
  rewrite (IH k) by done. lia.
Qed.

Lemma range_sum_empty arr a b : b <= a -> range_sum arr a b = 0.
Proof. intros Hab. unfold range_sum. by replace (Z.to_nat (b - a)) with 0%nat by lia. Qed.

Lemma range_sum_snoc arr a i x :
  0 <= a <= i -> arr !! Z.to_nat i = Some x ->
  range_sum arr a (i + 1) = range_sum arr a i + x.
Proof.
  intros Hai Hx. unfold range_sum.
  replace (Z.to_nat (i + 1 - a)) with (S (Z.to_nat (i - a))) by lia.
  rewrite (take_S_r _ _ x), sum_of_app; [simpl; lia|].
  rewrite lookup_drop. by replace (Z.to_nat a + Z.to_nat (i - a))%nat with (Z.to_nat i) by lia.
Qed.

Lemma range_sum_split arr a b c :
  0 <= a <= b -> b <= c ->
  range_sum arr a c = range_sum arr a b + range_sum arr b c.
Proof.
  intros Hab Hbc. unfold range_sum.
  replace (Z.to_nat (c - a)) with (Z.to_nat (b - a) + Z.to_nat (c - b))%nat by lia.
  rewrite <- take_take_drop, sum_of_app, drop_drop.
  by replace (Z.to_nat a + Z.to_nat (b - a))%nat with (Z.to_nat b) by lia.
Qed.

Lemma range_sum_all arr : range_sum arr 0 (size arr) = sum_of arr.
Proof.
  unfold range_sum, size. rewrite Z.sub_0_r, Nat2Z.id.
  change (Z.to_nat 0) with 0%nat. rewrite drop_0. by rewrite take_ge.
Qed.

Lemma index_Ok arr i :
  0 <= i < size arr -> exists x, index arr i = Ok x /\ arr !! Z.to_nat i = Some x.
Proof.
  unfold index, size. intros Hi.
  destruct (Z.leb_spec 0 i); [|lia]. destruct (Z.ltb_spec i (Z.of_nat (length arr))); [|lia].
  destruct (lookup_lt_is_Some_2 arr (Z.to_nat i)) as [x Hx]; [lia|].
  exists x. by rewrite Hx.
Qed.

Lemma store_Ok (v : list Z) i x :
  0 <= i < Z.of_nat (length v) -> store v i x = Ok (<[Z.to_nat i := x]> v).
Proof.
  unfold store. intros Hi.
  destruct (Z.leb_spec 0 i); [|lia]. by destruct (Z.ltb_spec i (Z.of_nat (length v))); [|lia].
Qed.

(** ** The sequential baseline computes the wrapped sum *)

Lemma sum_loop_spec arr : size_val (size arr) ->
  forall cnt i acc, (i + cnt = length arr)%nat -> int_val acc ->
  sum_loop arr cnt (Z.of_nat i) acc = Ok (wrap_int (acc + sum_of (drop i arr))).
Proof.
  intros Hn. induction cnt as [|cnt IH]; intros i acc Hlen Hacc; simpl.
  - rewrite drop_ge by lia. simpl. rewrite Z.add_0_r, wrap_int_id; done.
  - destruct (index_Ok arr (Z.of_nat i)) as (x & -> & Hx); [unfold size; lia|].
    rewrite Nat2Z.id in Hx.
    rewrite wrap_size_id by (unfold size_val, size in *; lia).
    replace (Z.of_nat i + 1) with (Z.of_nat (S i)) by lia.
    rewrite IH; [|lia|apply wrap_int_range].
    rewrite (drop_S _ _ _ Hx). simpl. unfold int_add.
    rewrite wrap_int_add_l. f_equal. f_equal. lia.
Qed.

Lemma single_thread_sum_spec arr :
  size_val (size arr) -> single_thread_sum arr = Ok (wrap_int (sum_of arr)).
Proof.
  intros Hn. unfold single_thread_sum.
  change 0 with (Z.of_nat 0) at 1.
  rewrite (sum_loop_spec arr Hn (length arr) 0%nat 0); [done|lia|].
  unfold int_val, int_min, int_max. lia.
Qed.

Lemma fold_int_add l : forall acc, int_val acc ->
  fold_left int_add l acc = wrap_int (acc + sum_of l).
Proof.
  induction l as [|x l IH]; intros acc Hacc; simpl.
  - rewrite Z.add_0_r, wrap_int_id; done.
  - rewrite IH by apply wrap_int_range. unfold int_add.
    rewrite wrap_int_add_l. f_equal. lia.
Qed.

Lemma total_of_spec l : total_of l = wrap_int (sum_of l).
Proof.
  unfold total_of. rewrite fold_int_add; [done|].
  unfold int_val, int_min, int_max. lia.
Qed.

Lemma wrap_sum_fmap {A} (f : A -> Z) (l : list A) :
  wrap_int (sum_of ((fun a => wrap_int (f a)) <$> l)) = wrap_int (sum_of (f <$> l)).
Proof.
  induction l as [|a l IH]; [done|]. rewrite !fmap_cons. simpl.
  rewrite wrap_int_add_l, <- wrap_int_add_r, IH, wrap_int_add_r. done.
Qed.

(** ** The chunk sums add up to the sum of the array *)

Section ChunkSums.

Variables (arr : list Z) (T : Z).
Hypothesis Hn : size_val (size arr).
Hypothesis HT : size_val T.
Hypothesis HT1 : 1 <= T.

Lemma chunk_total_prefix (m : nat) :
  Z.of_nat m <= T - 1 ->
  sum_of ((fun k => chunk_total arr T (Z.of_nat k)) <$> seq 0 m)
  = range_sum arr 0 (Z.of_nat m * (size arr / T)).
Proof using Hn HT HT1.
  pose proof (chunk_size_bound (size arr) T Hn HT1) as [Hq Hle].
  induction m as [|m IH]; intros Hm.
  - simpl. by rewrite range_sum_empty.
  - rewrite seq_S, fmap_app, sum_of_app, IH by lia. simpl.
    unfold chunk_total. rewrite (chunk_bounds_eq _ _ Hn HT HT1) by lia.
    destruct (Z.eqb_spec (Z.of_nat m) (T - 1)); [lia|].
    rewrite Z.add_0_r, <- range_sum_split by nia.
    f_equal. lia.
Qed.

Lemma chunk_total_sum :
  sum_of ((fun k => chunk_total arr T (Z.of_nat k)) <$> seq 0 (Z.to_nat T))
  = sum_of arr.
Proof using Hn HT HT1.
  pose proof (chunk_size_bound (size arr) T Hn HT1) as [Hq Hle].
  replace (Z.to_nat T) with (S (Z.to_nat (T - 1))) by lia.
  rewrite seq_S, fmap_app, sum_of_app, chunk_total_prefix by lia. simpl.
  unfold chunk_total. rewrite (chunk_bounds_eq _ _ Hn HT HT1) by lia.
  replace (Z.of_nat (Z.to_nat (T - 1))) with (T - 1) by lia.
  rewrite Z.eqb_refl, Z.add_0_r, <- range_sum_split by (destruct Hn; nia).
  apply range_sum_all.
Qed.

Lemma local_sums_total :
  wrap_int (sum_of ((fun k => local_sum_of arr T (Z.of_nat k)) <$> seq 0 (Z.to_nat T)))
  = wrap_int (sum_of arr).
Proof using Hn HT HT1.
  unfold local_sum_of.
  rewrite (wrap_sum_fmap (fun k => chunk_total arr T (Z.of_nat k))), chunk_total_sum. done.
Qed.

End ChunkSums.

(** ** The invariant is kept by every step *)

Section Machine.

Variables (s : strategy) (arr : list Z) (T : Z).
Hypothesis Hn : size_val (size arr).
Hypothesis HT : size_val T.
Hypothesis HT1 : 1 <= T.

Local Abbreviation inv := (invariant s arr T).
Local Abbreviation ok := (pc_ok s arr T).

Lemma invariant_init : inv (init arr).
Proof using HT1.
  split; simpl; try done. lia.
Qed.

Lemma inv_idx c k t :
  inv c -> c_threads c !! k = Some t -> t_idx t = Z.of_nat k /\ 0 <= t_idx t < T.
Proof using Type.
  intros Hc Hk. destruct (inv_threads _ _ _ _ Hc k t Hk) as [Hidx _].
  pose proof (inv_count _ _ _ _ Hc). apply lookup_lt_Some in Hk. lia.
Qed.

Lemma inv_sum_int c : inv c -> s <> Reduce -> wrap_int (c_sum c) = c_sum c.
Proof using Type.
  intros Hc Hs. rewrite (inv_sum _ _ _ _ Hc Hs). apply wrap_int_idem.
Qed.

(** [pc_ok] looks at the shared total only at [WStore], and at the
    thread's own slot of [partial_sums] only. *)
Lemma pc_ok_frame c c' t :
  c_partial c' !! Z.to_nat (t_idx t) = c_partial c !! Z.to_nat (t_idx t) ->
  (c_sum c' = c_sum c \/ forall v, t_pc t <> WStore v) ->
  ok c t -> ok c' t.
Proof using Type.
  unfold pc_ok. intros Hp Hs. destruct (t_pc t); try done.
  - destruct Hs as [->|Hs]; [done|]. by destruct (Hs v).
  - by rewrite Hp.
  - by rewrite Hp.
Qed.

Lemma contribution_insert l k t t' :
  l !! k = Some t ->
  sum_of (contribution arr T <$> <[k := t']> l)
  = sum_of (contribution arr T <$> l) + (contribution arr T t' - contribution arr T t).
Proof using Type.
  intros Hk. rewrite list_fmap_insert.
  rewrite (sum_of_insert _ _ (contribution arr T t)); [lia|].
  by rewrite list_lookup_fmap, Hk.
Qed.

(** Thread [k] moves from [t] to program point [p], changing the shared
    total, the mutex and the slots on the way. *)
Lemma update_invariant c c' k t p :
  inv c -> c_threads c !! k = Some t -> t_pc t <> WDone ->
  let t' := {| t_idx := t_idx t; t_pc := p |} in
  c_fault c' = None -> c_arr c' = c_arr c -> c_main c' = c_main c ->
  c_threads c' = <[k := t']> (c_threads c) ->
  ok c' t' ->
  (forall k' t2, k' <> k -> c_threads c !! k' = Some t2 -> ok c t2 -> ok c' t2) ->
  (forall k', k' <> k -> c_mtx c' = Some k' <-> c_mtx c = Some k') ->
  (holds_mtx p = true <-> c_mtx c' = Some k) ->
  (s <> Reduce ->
   c_sum c' = wrap_int (c_sum c + (contribution arr T t' - contribution arr T t))) ->
  length (c_partial c') = length (c_partial c) ->
  inv c'.
Proof using Type.
  intros Hc Hk Hnd t' Hf Ha Hm Hth Hok Hothers Hmtx Hown Hsum Hlen.
  split.
  - done.
  - rewrite Ha. apply Hc.
  - rewrite Hth, length_insert. apply Hc.
  - intros k' t2. rewrite Hth. destruct (decide (k' = k)) as [->|Hne].
    + rewrite list_lookup_insert_eq by (by eapply lookup_lt_Some).
      intros [= <-]. split; [|done]. simpl. by eapply inv_idx.
    + rewrite list_lookup_insert_ne by done. intros Hk'.
      destruct (inv_threads _ _ _ _ Hc k' t2 Hk') as [Hidx Hok2]. eauto.
  - pose proof (inv_main _ _ _ _ Hc) as Hmain. unfold main_ok in *.
    rewrite Hm, Hth, length_insert. destruct (c_main c) as [|i|j|v].
    + destruct Hmain as [Hnil _]. by rewrite Hnil in Hk.
    + done.
    + destruct Hmain as (Hl & Hj & Hdone). split_and!; [done..|].
      intros k' t2 Hk'j. destruct (decide (k' = k)) as [->|Hne].
      * by specialize (Hdone k t Hk'j Hk).
      * rewrite list_lookup_insert_ne by done. eauto.
    + done.
  - intros k' t2. rewrite Hth. destruct (decide (k' = k)) as [->|Hne].
    + rewrite list_lookup_insert_eq by (by eapply lookup_lt_Some).
      intros [= <-]. simpl. apply Hown.
    + rewrite list_lookup_insert_ne by done. intros Hk' Hh.
      apply Hmtx; [done|]. by eapply inv_holder.
  - intros k' Hk'. rewrite Hth. destruct (decide (k' = k)) as [->|Hne].
    + exists t'. rewrite list_lookup_insert_eq by (by eapply lookup_lt_Some).
      split; [done|]. by apply Hown.
    + rewrite list_lookup_insert_ne by done.
      apply Hmtx in Hk'; [|done]. by eapply inv_owner.
  - intros Hs. rewrite Hsum, Hth by done.
    rewrite (contribution_insert _ _ t) by done.
    rewrite (inv_sum _ _ _ _ Hc Hs), wrap_int_add_l. done.
  - intros Hs. rewrite Hm, Hlen. apply Hc. done.
Qed.

Lemma entry_bounds c k t :
  inv c -> c_threads c !! k = Some t ->
  exists st e, chunk_bounds (size (c_arr c)) T (t_idx t) = Ok (st, e) /\
               0 <= st <= e /\ e <= size arr.
Proof using Hn HT HT1.
  intros Hc Hk. destruct (inv_idx c k t Hc Hk) as [_ Hi].
  rewrite (inv_arr _ _ _ _ Hc).
  rewrite (chunk_bounds_eq _ _ Hn HT HT1) by done.
  eexists _, _. split; [done|].
  eapply (chunk_bounds_range _ _ Hn HT HT1); [done|].
  by apply chunk_bounds_eq.
Qed.

(** One iteration of a worker's loop: the read is in bounds, the loop
    variable does not wrap, and the accumulator follows the range sum. *)
Lemma read_next idx st e i :
  0 <= idx < T -> chunk_bounds (size arr) T idx = Ok (st, e) ->
  st <= i -> i < e ->
  exists x, index arr i = Ok x /\ wrap_size (i + 1) = i + 1 /\
            int_add (wrap_int (range_sum arr st i)) x = wrap_int (range_sum arr st (i + 1)).
Proof using Hn HT HT1.
  intros Hidx Hb Hst Hie.
  destruct (chunk_bounds_range _ _ Hn HT HT1 idx st e Hidx Hb) as [Hse Hen].
  destruct (index_Ok arr i) as (x & Hx & Hlk); [lia|].
  exists x. split_and!; [done| |].
  - apply wrap_size_id. unfold size_val in *. lia.
  - unfold int_add. rewrite wrap_int_add_l, (range_sum_snoc arr st i x); [done|lia|done].
Qed.


Lemma mtx_iff c k t :
  inv c -> c_threads c !! k = Some t ->
  holds_mtx (t_pc t) = true <-> c_mtx c = Some k.
Proof using Type.
  intros Hc Hk. split; [by eapply inv_holder|].
  intros Hm. destruct (inv_owner _ _ _ _ Hc k Hm) as (t' & Hk' & Hh). congruence.
Qed.

Lemma same_sum c t p :
  inv c -> committed p = committed (t_pc t) -> s <> Reduce ->
  c_sum c = wrap_int (c_sum c
    + (contribution arr T {| t_idx := t_idx t; t_pc := p |} - contribution arr T t)).
Proof using Type.
  intros Hc Hp Hs. unfold contribution. simpl. rewrite Hp, Z.sub_diag, Z.add_0_r.
  symmetry. by apply inv_sum_int.
Qed.

(** A step that touches nothing but the thread's own program point. *)
Lemma local_invariant c k t p :
  inv c -> c_threads c !! k = Some t -> t_pc t <> WDone ->
  ok c {| t_idx := t_idx t; t_pc := p |} ->
  holds_mtx p = holds_mtx (t_pc t) -> committed p = committed (t_pc t) ->
  inv (goto k t p c).
Proof using Type.
  intros Hc Hk Hnd Hok Hh Hcm.
  eapply update_invariant; try eassumption; try done.
  - apply Hc.
  - simpl. rewrite Hh. by apply mtx_iff.
  - simpl. by apply same_sum.
Qed.

Ltac local_step Hpc :=
  apply local_invariant;
  [done | done | by rewrite Hpc | | by rewrite Hpc | by rewrite Hpc].

(** The loop shared by [thread_sum_lock] and [thread_sum_atomic]. *)
Lemma loop_invariant c k t i e acc x :
  s <> Reduce -> inv c -> c_threads c !! k = Some t -> t_pc t = WLoop i e acc ->
  i < e -> index arr i = Ok x ->
  inv (goto k t (WLoop (wrap_size (i + 1)) e (int_add acc x)) c).
Proof using Hn HT HT1.
  intros Hs Hc Hk Hpc Hie Hx.
  destruct (inv_threads _ _ _ _ Hc k t Hk) as [_ Hok].
  destruct (inv_idx c k t Hc Hk) as [_ Hi].
  unfold pc_ok in Hok. rewrite Hpc in Hok.
  destruct Hok as (_ & st & Hb & Hst & ->).
  destruct (read_next _ st e i Hi Hb) as (x' & Hx' & Hw & Hadd); [lia..|].
  assert (x' = x) as -> by congruence.
  local_step Hpc. unfold pc_ok; simpl. split; [done|].
  exists st. rewrite Hw, Hadd. split_and!; [done|lia..|done].
Qed.

Lemma loop_exit c k t i e acc :
  inv c -> c_threads c !! k = Some t -> t_pc t = WLoop i e acc -> e <= i ->
  acc = local_sum_of arr T (t_idx t).
Proof using Type.
  intros Hc Hk Hpc Hie.
  destruct (inv_threads _ _ _ _ Hc k t Hk) as [_ Hok].
  unfold pc_ok in Hok. rewrite Hpc in Hok.
  destruct Hok as (_ & st & Hb & Hst & ->).
  unfold local_sum_of, chunk_total. rewrite Hb. by replace i with e by lia.
Qed.

Lemma loop_entry c k t st e :
  s <> Reduce -> inv c -> c_threads c !! k = Some t -> t_pc t = WEntry ->
  chunk_bounds (size (c_arr c)) T (t_idx t) = Ok (st, e) ->
  inv (goto k t (WLoop st e 0) c).
Proof using Hn HT HT1.
  intros Hs Hc Hk Hpc Hb.
  destruct (entry_bounds c k t Hc Hk) as (st' & e' & Hb' & Hse & Hen).
  rewrite Hb in Hb'. injection Hb' as <- <-.
  rewrite (inv_arr _ _ _ _ Hc) in Hb.
  local_step Hpc. unfold pc_ok; simpl. split; [done|].
  exists st. rewrite range_sum_empty by lia.
  split_and!; [done|lia..|done].
Qed.

Lemma thread_sum_lock_invariant c k t c' :
  s = Lock -> inv c -> c_threads c !! k = Some t ->
  thread_sum_lock T k t c = Some c' -> inv c'.
Proof using Hn HT HT1.
  intros Hs Hc Hk Hstep.
  assert (Hs' : s <> Reduce) by by rewrite Hs.
  destruct (inv_threads _ _ _ _ Hc k t Hk) as [Hidx Hok].
  pose proof (inv_arr _ _ _ _ Hc) as Harr.
  unfold thread_sum_lock in Hstep. unfold pc_ok in Hok.
  destruct (t_pc t) as [|i e acc|acc|acc|v| |acc|i e|] eqn:Hpc; try done.
  - destruct (entry_bounds c k t Hc Hk) as (st & e & Hb & _).
    rewrite Hb in Hstep. injection Hstep as <-. by apply loop_entry.
  - destruct (Z.ltb_spec i e) as [Hie|Hie].
    + destruct Hok as (_ & st & Hb & Hst & _).
      destruct (inv_idx c k t Hc Hk) as [_ Hi].
      destruct (read_next _ st e i Hi Hb) as (x & Hx & _); [lia..|].
      rewrite Harr, Hx in Hstep. injection Hstep as <-. by apply loop_invariant.
    + injection Hstep as <-. local_step Hpc. unfold pc_ok; simpl.
      split; [done|]. by eapply loop_exit.
  - destruct (c_mtx c) eqn:Hm; [done|]. injection Hstep as <-.
    eapply (update_invariant c _ k t); try done.
    + by rewrite Hpc.
    + apply Hc.
    + simpl. intros k' Hk'. rewrite Hm. split; intros ?; simplify_eq.
    + simpl. apply same_sum; [done|by rewrite Hpc].
  - injection Hstep as <-. local_step Hpc. unfold pc_ok; simpl.
    destruct Hok as [_ Hacc]. by rewrite Hacc.
  - injection Hstep as <-.
    assert (Hmk : c_mtx c = Some k) by (apply (mtx_iff c k t Hc Hk); by rewrite Hpc).
    eapply (update_invariant c _ k t); try done.
    + by rewrite Hpc.
    + apply Hc.
    + intros k' t2 Hne Hk' Hok2. apply (pc_ok_frame c); [done| |done].
      right. intros v' Hpc2.
      assert (c_mtx c = Some k') by (eapply inv_holder; [done..|by rewrite Hpc2]).
      congruence.
    + intros _. simpl. unfold contribution; simpl. rewrite Hpc; simpl.
      destruct Hok as [_ Hv]. rewrite Hv. unfold int_add. f_equal. lia.
  - injection Hstep as <-.
    assert (Hmk : c_mtx c = Some k) by (apply (mtx_iff c k t Hc Hk); by rewrite Hpc).
    eapply (update_invariant c _ k t); try done.
    + by rewrite Hpc.
    + apply Hc.
    + unfold pc_ok; simpl. intros ?. congruence.
    + simpl. intros k' Hk'. rewrite Hmk. split; intros ?; simplify_eq.
    + simpl. apply same_sum; [done|by rewrite Hpc].
Qed.

Lemma thread_sum_atomic_invariant c k t c' :
  s = Atomic -> inv c -> c_threads c !! k = Some t ->
  thread_sum_atomic T k t c = Some c' -> inv c'.
Proof using Hn HT HT1.
  intros Hs Hc Hk Hstep.
  assert (Hs' : s <> Reduce) by by rewrite Hs.
  destruct (inv_threads _ _ _ _ Hc k t Hk) as [Hidx Hok].
  pose proof (inv_arr _ _ _ _ Hc) as Harr.
  unfold thread_sum_atomic in Hstep. unfold pc_ok in Hok.
  destruct (t_pc t) as [|i e acc|acc|acc|v| |acc|i e|] eqn:Hpc; try done.
  - destruct (entry_bounds c k t Hc Hk) as (st & e & Hb & _).
    rewrite Hb in Hstep. injection Hstep as <-. by apply loop_entry.
  - destruct (Z.ltb_spec i e) as [Hie|Hie].
    + destruct Hok as (_ & st & Hb & Hst & _).
      destruct (inv_idx c k t Hc Hk) as [_ Hi].
      destruct (read_next _ st e i Hi Hb) as (x & Hx & _); [lia..|].
      rewrite Harr, Hx in Hstep. injection Hstep as <-. by apply loop_invariant.
    + injection Hstep as <-. local_step Hpc. unfold pc_ok; simpl.
      split; [done|]. by eapply loop_exit.
  - injection Hstep as <-.
    eapply (update_invariant c _ k t); try done.
    + by rewrite Hpc.
    + apply Hc.
    + unfold pc_ok; simpl. intros ?. congruence.
    + intros k' t2 Hne Hk' Hok2. apply (pc_ok_frame c); [done| |done].
      right. intros v' Hpc2. unfold pc_ok in Hok2. rewrite Hpc2 in Hok2.
      destruct Hok2. congruence.
    + simpl. rewrite <- (mtx_iff c k t Hc Hk), Hpc. done.
    + intros _. simpl. unfold contribution; simpl. rewrite Hpc; simpl.
      destruct Hok as [_ Hacc]. rewrite Hacc. unfold int_add. f_equal. lia.
Qed.

Lemma partial_length c k t :
  s = Reduce -> inv c -> c_threads c !! k = Some t ->
  Z.of_nat (length (c_partial c)) = T.
Proof using Type.
  intros Hs Hc Hk. apply (inv_partial _ _ _ _ Hc Hs).
  pose proof (inv_main _ _ _ _ Hc) as Hmain. unfold main_ok in Hmain.
  intros Hm. rewrite Hm in Hmain. destruct Hmain as [Hnil _]. by rewrite Hnil in Hk.
Qed.

Lemma slot_frame c k t (l : list Z) x k' t2 :
  inv c -> c_threads c !! k = Some t -> c_threads c !! k' = Some t2 -> k' <> k ->
  <[Z.to_nat (t_idx t) := x]> l !! Z.to_nat (t_idx t2) = l !! Z.to_nat (t_idx t2).
Proof using Type.
  intros Hc Hk Hk' Hne.
  destruct (inv_idx c k t Hc Hk) as [-> _]. destruct (inv_idx c k' t2 Hc Hk') as [-> _].
  apply list_lookup_insert_ne. lia.
Qed.

Lemma thread_sum_reduce_invariant c k t c' :
  s = Reduce -> inv c -> c_threads c !! k = Some t ->
  thread_sum_reduce T k t c = Some c' -> inv c'.
Proof using Hn HT HT1.
  intros Hs Hc Hk Hstep.
  destruct (inv_threads _ _ _ _ Hc k t Hk) as [Hidx Hok].
  destruct (inv_idx c k t Hc Hk) as [_ Hi].
  pose proof (inv_arr _ _ _ _ Hc) as Harr.
  pose proof (partial_length c k t Hs Hc Hk) as Hlen.
  unfold thread_sum_reduce in Hstep. unfold pc_ok in Hok.
  destruct (t_pc t) as [|i e acc|acc|acc|v| |acc|i e|] eqn:Hpc; try done.
  - destruct (entry_bounds c k t Hc Hk) as (st & e & Hb & Hse & Hen).
    rewrite Hb, store_Ok in Hstep by lia. injection Hstep as <-.
    rewrite Harr in Hb.
    eapply (update_invariant c _ k t); try done.
    + by rewrite Hpc.
    + apply Hc.
    + unfold pc_ok; simpl. split; [done|]. exists st.
      rewrite list_lookup_insert_eq, range_sum_empty by lia.
      split_and!; [done|lia..|done].
    + intros k' t2 Hne Hk' Hok2. apply (pc_ok_frame c); [|by left|done].
      simpl. by eapply slot_frame.
    + simpl. rewrite <- (mtx_iff c k t Hc Hk), Hpc. done.
    + simpl. by rewrite length_insert.
  - destruct Hok as (_ & st & Hb & Hst & Hslot).
    destruct (Z.ltb_spec i e) as [Hie|Hie].
    + destruct (read_next _ st e i Hi Hb) as (x & Hx & Hw & Hadd); [lia..|].
      destruct (index_Ok (c_partial c) (t_idx t)) as (y & Hy & Hy'); [unfold size; lia|].
      rewrite Harr, Hx, Hy, store_Ok in Hstep by lia. injection Hstep as <-.
      assert (y = wrap_int (range_sum arr st i)) as -> by congruence.
      eapply (update_invariant c _ k t); try done.
      * by rewrite Hpc.
      * apply Hc.
      * unfold pc_ok; simpl. split; [done|]. exists st.
        rewrite list_lookup_insert_eq, Hw, Hadd by lia.
        split_and!; [done|lia..|done].
      * intros k' t2 Hne Hk' Hok2. apply (pc_ok_frame c); [|by left|done].
        simpl. by eapply slot_frame.
      * simpl. rewrite <- (mtx_iff c k t Hc Hk), Hpc. done.
      * simpl. by rewrite length_insert.
    + injection Hstep as <-.
      eapply (update_invariant c _ k t); try done.
      * by rewrite Hpc.
      * apply Hc.
      * unfold pc_ok; simpl. intros _.
        rewrite Hslot. unfold local_sum_of, chunk_total. rewrite Hb.
        by replace i with e by lia.
      * simpl. rewrite <- (mtx_iff c k t Hc Hk), Hpc. done.
Qed.

Lemma worker_step_invariant c k t c' :
  inv c -> c_threads c !! k = Some t -> worker_step s T k t c = Some c' -> inv c'.
Proof using Hn HT HT1.
  intros Hc Hk Hstep.
  assert (s = Lock \/ s = Atomic \/ s = Reduce) as [Hs|[Hs|Hs]]
    by (destruct s; auto); rewrite Hs in Hstep; simpl in Hstep.
  - by eapply thread_sum_lock_invariant.
  - by eapply thread_sum_atomic_invariant.
  - by eapply thread_sum_reduce_invariant.
Qed.

(** Only the calling thread moves, to program point [m]. *)
Lemma with_main_invariant c m :
  inv c -> main_ok arr T (with_main m c) ->
  (s = Reduce -> Z.of_nat (length (c_partial c)) = T) ->
  inv (with_main m c).
Proof using Type.
  intros Hc Hm Hp. split; try apply Hc; try done.
  intros Hs _. by apply Hp.
Qed.

Lemma spawn_invariant c i :
  inv c -> c_main c = MSpawn i -> i < T ->
  inv (with_main (MSpawn (wrap_size (i + 1))) (spawn i c)).
Proof using HT.
  intros Hc Hm Hi.
  pose proof (inv_main _ _ _ _ Hc) as Hmain. unfold main_ok in Hmain.
  rewrite Hm in Hmain. subst i.
  rewrite wrap_size_id by (unfold size_val in *; lia).
  split; simpl.
  - apply Hc.
  - apply Hc.
  - rewrite length_app. simpl. lia.
  - intros k t Hk. apply lookup_app_Some in Hk as [Hk|[Hlen Hk]].
    + by apply (inv_threads _ _ _ _ Hc).
    + apply list_lookup_singleton_Some in Hk as [Hk <-]. simpl.
      split; [lia|done].
  - unfold main_ok; simpl. rewrite length_app. simpl. lia.
  - intros k t Hk Hh. apply lookup_app_Some in Hk as [Hk|[Hlen Hk]].
    + by eapply inv_holder.
    + by apply list_lookup_singleton_Some in Hk as [Hk <-].
  - intros k Hk. destruct (inv_owner _ _ _ _ Hc k Hk) as (t & Ht & Hh).
    exists t. split; [|done]. by apply lookup_app_l_Some.
  - intros Hs. rewrite fmap_app, sum_of_app. simpl.
    rewrite Z.add_0_r. by apply Hc.
  - intros Hs _. apply Hc; [done|]. by rewrite Hm.
Qed.

(** Once every thread has returned, the shared total is the wrapped sum. *)
Lemma all_done_sum c :
  inv c -> s <> Reduce -> Z.of_nat (length (c_threads c)) = T ->
  (forall k t, c_threads c !! k = Some t -> t_pc t = WDone) ->
  c_sum c = wrap_int (sum_of arr).
Proof using Hn HT HT1.
  intros Hc Hs Hlen Hdone.
  rewrite (inv_sum _ _ _ _ Hc Hs), <- (local_sums_total arr T Hn HT HT1).
  f_equal. f_equal. apply list_eq. intros i. rewrite !list_lookup_fmap.
  destruct (c_threads c !! i) as [t|] eqn:Hi; simpl.
  - rewrite lookup_seq_lt by (apply lookup_lt_Some in Hi; lia). simpl.
    unfold contribution. rewrite (Hdone i t Hi). simpl.
    by destruct (inv_idx c i t Hc Hi) as [-> _].
  - rewrite lookup_seq_ge; [done|]. apply lookup_ge_None in Hi. lia.
Qed.

(** Once every thread has returned, the slots hold the local sums. *)
Lemma all_done_total c :
  inv c -> s = Reduce -> c_main c <> MEntry ->
  Z.of_nat (length (c_threads c)) = T ->
  (forall k t, c_threads c !! k = Some t -> t_pc t = WDone) ->
  total_of (c_partial c) = wrap_int (sum_of arr).
Proof using Hn HT HT1.
  intros Hc Hs Hm Hlen Hdone.
  pose proof (inv_partial _ _ _ _ Hc Hs Hm) as Hpl.
  rewrite total_of_spec, <- (local_sums_total arr T Hn HT HT1).
  f_equal. f_equal. apply list_eq. intros i. rewrite list_lookup_fmap.
  destruct (c_threads c !! i) as [t|] eqn:Hi; simpl.
  - rewrite lookup_seq_lt by (apply lookup_lt_Some in Hi; lia). simpl.
    destruct (inv_threads _ _ _ _ Hc i t Hi) as [Hidx Hok].
    unfold pc_ok in Hok. rewrite (Hdone i t Hi), Hidx, Nat2Z.id in Hok. by apply Hok.
  - apply lookup_ge_None in Hi. rewrite lookup_seq_ge by lia. simpl.
    apply lookup_ge_None. lia.
Qed.

Lemma spawn_join_invariant ret c c' :
  inv c -> c_main c <> MEntry ->
  (Z.of_nat (length (c_threads c)) = T ->
   (forall k t, c_threads c !! k = Some t -> t_pc t = WDone) ->
   ret c = wrap_int (sum_of arr)) ->
  spawn_join ret T c = Some c' -> inv c'.
Proof using HT.
  intros Hc Hne Hret Hstep.
  pose proof (inv_main _ _ _ _ Hc) as Hmain. unfold main_ok in Hmain.
  pose proof (inv_count _ _ _ _ Hc) as Hcount.
  assert (Hp : s = Reduce -> Z.of_nat (length (c_partial c)) = T)
    by (intros Hs; by apply Hc).
  unfold spawn_join in Hstep.
  destruct (c_main c) as [|i|j|v] eqn:Hm; try done.
  - destruct (Z.ltb_spec i T) as [Hi|Hi]; injection Hstep as <-.
    + by apply spawn_invariant.
    + apply with_main_invariant; [done| |done].
      unfold main_ok; simpl. split_and!; [lia|lia|]. intros k t Hk. lia.
  - destruct Hmain as (Hlen & Hj & Hdone).
    destruct (c_threads c !! j) as [t|] eqn:Hj'.
    + destruct (t_pc t) eqn:Hpc; try done. injection Hstep as <-.
      apply with_main_invariant; [done| |done].
      unfold main_ok; simpl. split_and!; [done|by eapply lookup_lt_Some|].
      intros k t' Hk Hk'. destruct (decide (k = j)) as [->|Hkj].
      * congruence.
      * apply (Hdone k t'); [lia|done].
    + injection Hstep as <-.
      apply with_main_invariant; [done| |done].
      unfold main_ok; simpl. apply Hret; [done|].
      intros k t Hk. apply (Hdone k t); [|done].
      apply lookup_ge_None in Hj'. apply lookup_lt_Some in Hk. lia.
Qed.

(** Entering a strategy: nothing is spawned yet. *)
Lemma entry_invariant c c' :
  inv c -> c_main c = MEntry ->
  c_fault c' = None -> c_arr c' = c_arr c -> c_threads c' = [] ->
  c_sum c' = 0 -> c_mtx c' = None -> c_main c' = MSpawn 0 ->
  (s = Reduce -> Z.of_nat (length (c_partial c')) = T) ->
  inv c'.
Proof using HT1.
  intros Hc Hm Hf Ha Ht Hs Hx Hm' Hp. split.
  - done.
  - rewrite Ha. apply Hc.
  - rewrite Ht. simpl. lia.
  - intros k t. by rewrite Ht.
  - unfold main_ok. by rewrite Hm', Ht.
  - intros k t. by rewrite Ht.
  - intros k. by rewrite Hx.
  - intros _. by rewrite Hs, Ht.
  - intros Hr _. by apply Hp.
Qed.

Lemma main_step_invariant c c' :
  inv c -> main_step s T c = Some c' -> inv c'.
Proof using Hn HT HT1.
  intros Hc Hstep.
  pose proof (inv_main _ _ _ _ Hc) as Hmain. unfold main_ok in Hmain.
  assert (Hsj : forall ret,
    (s <> Reduce -> ret = c_sum) ->
    (s = Reduce -> ret = fun c => total_of (c_partial c)) ->
    c_main c <> MEntry -> spawn_join ret T c = Some c' -> inv c').
  { intros ret Hr1 Hr2 Hne Hsp. eapply spawn_join_invariant; [done..| |done].
    intros Hlen Hdone. destruct (decide (s = Reduce)) as [Hs|Hs].
    - rewrite (Hr2 Hs). by apply all_done_total.
    - rewrite (Hr1 Hs). by apply all_done_sum. }
  assert (HT0 : (T =? 0) = false) by (apply Z.eqb_neq; lia).
  assert (s = Lock \/ s = Atomic \/ s = Reduce) as [Hs|[Hs|Hs]]
    by (destruct s; auto); rewrite Hs in Hstep; simpl in Hstep.
  - unfold main_lock in Hstep. destruct (c_main c) eqn:Hm;
      try (apply (Hsj c_sum); [done|intros ?; congruence|done|done]).
    injection Hstep as <-. destruct Hmain as (Hnil & Hsum & Hmtx).
    eapply entry_invariant; try done; [apply Hc|congruence].
  - unfold main_atomic in Hstep. destruct (c_main c) eqn:Hm;
      try (apply (Hsj c_sum); [done|intros ?; congruence|done|done]).
    unfold size_div in Hstep. rewrite HT0 in Hstep.
    injection Hstep as <-. destruct Hmain as (Hnil & Hsum & Hmtx).
    eapply entry_invariant; try done; [apply Hc|congruence].
  - unfold main_reduce in Hstep. destruct (c_main c) eqn:Hm;
      try (apply (Hsj (fun c => total_of (c_partial c))); [intros ?; congruence|done..]).
    unfold size_div in Hstep. rewrite HT0 in Hstep.
    injection Hstep as <-. destruct Hmain as (Hnil & Hsum & Hmtx).
    eapply entry_invariant; try done; [apply Hc|].
    intros _. simpl. rewrite length_replicate. lia.
Qed.

Lemma step_invariant c who c' :
  inv c -> step s T c who = Some c' -> inv c'.
Proof using Hn HT HT1.
  intros Hc. unfold step. rewrite (inv_fault _ _ _ _ Hc).
  destruct who as [|k].
  - by apply main_step_invariant.
  - destruct (c_threads c !! k) as [t|] eqn:Hk; [|done].
    by apply worker_step_invariant.
Qed.

Lemma run_invariant sched : forall c, inv c -> inv (run s T sched c).
Proof using Hn HT HT1.
  induction sched as [|who sched IH]; intros c Hc; [done|].
  simpl. apply IH. destruct (step s T c who) as [c'|] eqn:Hstep; simpl; [|done].
  by eapply step_invariant.
Qed.

Lemma reachable_invariant c : reachable s arr T c -> inv c.
Proof using Hn HT HT1.
  intros [sched ->]. apply run_invariant, invariant_init.
Qed.

(** ** Every execution can be completed *)

(** A spawned thread that has not returned can move, unless it waits for
    the mutex. *)
Lemma worker_enabled c k t :
  inv c -> c_threads c !! k = Some t -> t_pc t <> WDone ->
  (exists c', worker_step s T k t c = Some c') \/
  (exists acc k0, t_pc t = WAcquire acc /\ c_mtx c = Some k0).
Proof using Type.
  intros Hc Hk Hnd.
  destruct (inv_threads _ _ _ _ Hc k t Hk) as [_ Hok]. unfold pc_ok in Hok.
  assert (s = Lock \/ s = Atomic \/ s = Reduce) as [Hs|[Hs|Hs]]
    by (destruct s; auto); rewrite Hs; simpl;
    [unfold thread_sum_lock|unfold thread_sum_atomic|unfold thread_sum_reduce];
    destruct (t_pc t) eqn:Hpc; try done;
    try (destruct Hok; congruence);
    try congruence;
    try (left; repeat case_match; eauto; fail).
  destruct (c_mtx c) as [k0|] eqn:Hm; [right|left]; eauto.
Qed.

Lemma holder_enabled c k t :
  inv c -> c_threads c !! k = Some t -> holds_mtx (t_pc t) = true ->
  exists c', worker_step s T k t c = Some c'.
Proof using Type.
  intros Hc Hk Hh.
  destruct (worker_enabled c k t Hc Hk) as [?|(acc & k0 & Hpc & _)]; [|done|].
  - intros Hpc. by rewrite Hpc in Hh.
  - by rewrite Hpc in Hh.
Qed.

Lemma progress c :
  inv c -> outcome c = None -> exists who c', step s T c who = Some c'.
Proof using Type.
  intros Hc Hout. unfold outcome, step in *.
  pose proof (inv_main _ _ _ _ Hc) as Hmain. unfold main_ok in Hmain.
  rewrite (inv_fault _ _ _ _ Hc) in *.
  assert (Hw : forall k t, c_threads c !! k = Some t -> t_pc t <> WDone ->
                exists who c', step s T c who = Some c').
  { intros k t Hk Hnd. unfold step. rewrite (inv_fault _ _ _ _ Hc).
    destruct (worker_enabled c k t Hc Hk Hnd) as [[c' Hc']|(acc & k0 & Hpc & Hm)].
    - exists (Worker k), c'. by rewrite Hk.
    - destruct (inv_owner _ _ _ _ Hc k0 Hm) as (t0 & Hk0 & Hh).
      destruct (holder_enabled c k0 t0 Hc Hk0 Hh) as [c' Hc'].
      exists (Worker k0), c'. by rewrite Hk0. }
  unfold step in Hw. rewrite (inv_fault _ _ _ _ Hc) in Hw.
  destruct (c_main c) as [|i|j|v] eqn:Hm; [| | |done].
  - exists Main. destruct s; simpl;
      unfold main_lock, main_atomic, main_reduce; rewrite Hm;
      repeat case_match; eauto.
  - exists Main. destruct s; simpl;
      unfold main_lock, main_atomic, main_reduce, spawn_join; rewrite Hm;
      repeat case_match; eauto.
  - destruct (c_threads c !! j) as [t|] eqn:Hj.
    + destruct (decide (t_pc t = WDone)) as [Hd|Hd]; [|by eapply Hw].
      exists Main. destruct s; simpl;
        unfold main_lock, main_atomic, main_reduce, spawn_join;
        rewrite Hm, Hj, Hd; eauto.
    + exists Main. destruct s; simpl;
        unfold main_lock, main_atomic, main_reduce, spawn_join;
        rewrite Hm, Hj; eauto.
Qed.

(** ** Every step uses up work *)

Lemma pc_work_nonneg n p : 0 <= n -> 0 <= pc_work n p.
Proof using Type. destruct p; simpl; lia. Qed.

Lemma sum_work_nonneg n (l : list thread) :
  0 <= n -> 0 <= sum_of ((fun t => pc_work n (t_pc t)) <$> l).
Proof using Type.
  intros Hn0. induction l as [|t l IH]; [done|].
  rewrite fmap_cons. change (sum_of (?x :: ?l)) with (x + sum_of l).
  pose proof (pc_work_nonneg n (t_pc t) Hn0). lia.
Qed.

Lemma work_update c c' k t p :
  c_threads c !! k = Some t -> c_arr c' = c_arr c -> c_main c' = c_main c ->
  c_threads c' = <[k := {| t_idx := t_idx t; t_pc := p |}]> (c_threads c) ->
  work T c' = work T c + (pc_work (size (c_arr c)) p - pc_work (size (c_arr c)) (t_pc t)).
Proof using Type.
  intros Hk Ha Hm Ht. unfold work. rewrite Ha, Hm, Ht, length_insert, list_fmap_insert.
  rewrite (sum_of_insert _ _ (pc_work (size (c_arr c)) (t_pc t))); [simpl; lia|].
  by rewrite list_lookup_fmap, Hk.
Qed.

Lemma worker_step_work c k t c' :
  inv c -> c_threads c !! k = Some t -> worker_step s T k t c = Some c' ->
  work T c' < work T c.
Proof using Hn HT HT1.
  intros Hc Hk Hstep.
  pose proof (inv_fault _ _ _ _ (worker_step_invariant c k t c' Hc Hk Hstep)) as Hf.
  destruct (inv_threads _ _ _ _ Hc k t Hk) as [_ Hok]. unfold pc_ok in Hok.
  destruct (inv_idx c k t Hc Hk) as [_ Hi].
  destruct (entry_bounds c k t Hc Hk) as (st0 & e0 & Hb0 & Hse0 & Hen0).
  pose proof (inv_arr _ _ _ _ Hc) as Harr.
  assert (Hloop : forall i e st, chunk_bounds (size arr) T (t_idx t) = Ok (st, e) ->
            st <= i -> i < e -> wrap_size (i + 1) = i + 1).
  { intros i e st Hb H1 H2.
    by destruct (read_next _ st e i Hi Hb H1 H2) as (x & _ & Hw & _). }
  destruct s; simpl in Hstep;
    unfold thread_sum_lock, thread_sum_atomic, thread_sum_reduce in Hstep;
    destruct (t_pc t) eqn:Hpc; try done;
    repeat case_match; try done;
    injection Hstep as <-; try done;
    erewrite (work_update c _ k t) by done;
    rewrite Hpc, Harr; simpl;
    repeat match goal with
      | H : (_ <? _) = true |- _ => apply Z.ltb_lt in H
      | H : (_ <? _) = false |- _ => apply Z.ltb_ge in H
      end;
    try (injection Hb0 as <- <-);
    try (destruct Hok as (_ & st & Hb & Hst & _));
    try (rewrite (Hloop _ _ _ Hb) by lia);
    lia.
Qed.

Lemma main_step_work c c' :
  inv c -> main_step s T c = Some c' -> work T c' < work T c.
Proof using Hn HT HT1.
  intros Hc Hstep.
  pose proof (inv_fault _ _ _ _ (main_step_invariant c c' Hc Hstep)) as Hf.
  pose proof (inv_main _ _ _ _ Hc) as Hmain. unfold main_ok in Hmain.
  pose proof (inv_count _ _ _ _ Hc) as Hcount.
  destruct Hn as [Hn0 _].
  destruct s; simpl in Hstep;
    unfold main_lock, main_atomic, main_reduce, spawn_join in Hstep;
    destruct (c_main c) eqn:Hm; try done;
    repeat case_match; try done;
    injection Hstep as <-; try done;
    unfold work; simpl; rewrite ?Hm; simpl;
    repeat match goal with
      | H : (_ <? _) = true |- _ => apply Z.ltb_lt in H
      | H : (_ <? _) = false |- _ => apply Z.ltb_ge in H
      end;
    rewrite ?fmap_app, ?sum_of_app, ?length_app; simpl;
    rewrite ?wrap_size_id by (unfold size_val in *; lia);
    lia.
Qed.

Lemma step_work c who c' :
  inv c -> step s T c who = Some c' -> 0 <= work T c' < work T c.
Proof using Hn HT HT1.
  intros Hc Hstep. split.
  - pose proof (step_invariant c who c' Hc Hstep) as Hc'.
    pose proof (inv_count _ _ _ _ Hc') as Hcount.
    pose proof (inv_main _ _ _ _ Hc') as Hmain. unfold main_ok in Hmain.
    rewrite <- (inv_arr _ _ _ _ Hc') in Hn. destruct Hn as [Hn0 _].
    pose proof (sum_work_nonneg (size (c_arr c')) (c_threads c') Hn0).
    unfold work. destruct (c_main c'); simpl; nia.
  - unfold step in Hstep. rewrite (inv_fault _ _ _ _ Hc) in Hstep.
    destruct who as [|k].
    + by apply main_step_work.
    + destruct (c_threads c !! k) as [t|] eqn:Hk; [|done].
      by eapply worker_step_work.
Qed.

(** From any configuration that satisfies the invariant, some schedule
    leads to the return of the wrapped sum. *)
Lemma completion c :
  inv c -> exists sched, outcome (run s T sched c) = Some (Ok (wrap_int (sum_of arr))).
Proof using Hn HT HT1.
  remember (Z.to_nat (work T c)) as m eqn:Hm.
  revert c Hm. induction (lt_wf m) as [m _ IH]. intros c Hm Hc.
  destruct (outcome c) as [r|] eqn:Hout.
  - exists []. simpl. rewrite Hout. unfold outcome in Hout.
    rewrite (inv_fault _ _ _ _ Hc) in Hout.
    pose proof (inv_main _ _ _ _ Hc) as Hmain. unfold main_ok in Hmain.
    destruct (c_main c); try done. by injection Hout as <-; subst.
  - destruct (progress c Hc Hout) as (who & c' & Hstep).
    pose proof (step_work c who c' Hc Hstep) as Hw.
    destruct (IH (Z.to_nat (work T c'))) with (c := c') as [sched Hs];
      [lia|done|by eapply step_invariant|].
    exists (who :: sched). simpl. by rewrite Hstep.
Qed.

(** ** What the invariant says of the workers *)

(** A worker reads the array inside its chunk, hence inside the array. *)
Lemma read_in_chunk c k t i :
  inv c -> c_threads c !! k = Some t -> next_read (t_pc t) = Some i ->
  in_chunk (size arr) T (Z.of_nat k) i.
Proof using Type.
  intros Hc Hk Hr.
  destruct (inv_threads _ _ _ _ Hc k t Hk) as [Hidx Hok]. unfold pc_ok in Hok.
  rewrite Hidx in Hok. unfold in_chunk.
  destruct (t_pc t) as [|j e acc| | | | | |j e|]; simpl in Hr; try done;
    destruct (Z.ltb_spec j e); try done; injection Hr as ->.
  - destruct Hok as (_ & st & Hb & Hst & _). exists st, e. split; [done|lia].
  - destruct Hok as (_ & st & Hb & Hst & _). exists st, e. split; [done|lia].
Qed.

(** The local sum a worker is about to add is the wrapped sum of its chunk. *)
Lemma commit_value c k t v :
  inv c -> c_threads c !! k = Some t ->
  t_pc t = WAcquire v \/ t_pc t = WLoad v \/ t_pc t = WFetchAdd v ->
  v = local_sum_of arr T (Z.of_nat k).
Proof using Type.
  intros Hc Hk Hpc.
  destruct (inv_threads _ _ _ _ Hc k t Hk) as [Hidx Hok]. unfold pc_ok in Hok.
  rewrite Hidx in Hok. destruct Hpc as [Hpc|[Hpc|Hpc]]; rewrite Hpc in Hok; apply Hok.
Qed.

(** The slot of a worker of the reduce strategy that has returned. *)
Lemma slot_value c k t :
  s = Reduce -> inv c -> c_threads c !! k = Some t -> t_pc t = WDone ->
  c_partial c !! k = Some (local_sum_of arr T (Z.of_nat k)).
Proof using Type.
  intros Hs Hc Hk Hpc.
  destruct (inv_threads _ _ _ _ Hc k t Hk) as [Hidx Hok]. unfold pc_ok in Hok.
  rewrite Hpc, Hidx, Nat2Z.id in Hok. by apply Hok.
Qed.

End Machine.

(** ** The three strategies return the wrapped sum *)

Lemma run_app s T sched more c :
  run s T (sched ++ more) c = run s T more (run s T sched c).
Proof. unfold run. apply fold_left_app. Qed.

Lemma invariant_outcome s arr T c r :
  invariant s arr T c -> outcome c = Some r -> r = Ok (wrap_int (sum_of arr)).
Proof.
  intros Hc Hout. unfold outcome in Hout. rewrite (inv_fault _ _ _ _ Hc) in Hout.
  pose proof (inv_main _ _ _ _ Hc) as Hmain. unfold main_ok in Hmain.
  destruct (c_main c); try done. by injection Hout as <-; subst.
Qed.

(** Whatever the schedule, a strategy that has returned has returned the
    wrapped sum, and every schedule can be continued until it returns. *)
Lemma multi_thread_sum_spec s arr T sched :
  size_val (size arr) -> size_val T -> 1 <= T ->
  (forall r, multi_thread_sum s arr T sched = Some r -> r = Ok (wrap_int (sum_of arr))) /\
  (exists more, multi_thread_sum s arr T (sched ++ more) = Some (Ok (wrap_int (sum_of arr)))).
Proof.
  intros Hn HT HT1. unfold multi_thread_sum.
  pose proof (run_invariant s arr T Hn HT HT1 sched (init arr)
                (invariant_init s arr T HT1)) as Hc.
  split.
  - intros r. by apply (invariant_outcome s arr T).
  - destruct (completion s arr T Hn HT HT1 _ Hc) as [more Hmore].
    exists more. by rewrite run_app.
Qed.

(** ** The array is only read *)

Lemma worker_step_frame s T k t c c' :
  worker_step s T k t c = Some c' -> c_arr c' = c_arr c.
Proof.
  destruct s; simpl;
    unfold thread_sum_lock, thread_sum_atomic, thread_sum_reduce;
    intros Hstep; repeat case_match; try done; by injection Hstep as <-.
Qed.

Lemma main_step_frame s T c c' :
  main_step s T c = Some c' -> c_arr c' = c_arr c.
Proof.
  destruct s; simpl;
    unfold main_lock, main_atomic, main_reduce, spawn_join;
    intros Hstep; repeat case_match; try done; by injection Hstep as <-.
Qed.

Lemma step_frame s T c who c' :
  step s T c who = Some c' -> c_arr c' = c_arr c.
Proof.
  unfold step. intros Hstep. repeat case_match; try done.
  - by eapply main_step_frame.
  - by eapply worker_step_frame.
Qed.

Lemma run_frame s T sched : forall c, c_arr (run s T sched c) = c_arr c.
Proof.
  induction sched as [|who sched IH]; intros c; [done|].
  simpl. rewrite IH. destruct (step s T c who) as [c'|] eqn:Hstep; [|done].
  simpl. by eapply step_frame.
Qed.

(** * The properties of the specification *)

Ltac size_vals := unfold size_val, size, size_modulus; simpl; lia.

(** C1: for every array and every thread count [T] with
    [1 <= T <= size + 8], the four summation functions agree: the
    sequential scan returns a value [v] without fault, and under every
    schedule each of the lock, atomic and reduce strategies, once it has
    returned, has returned the same [v]; every schedule can be continued
    until the strategy returns. *)
Theorem strategies_agree (arr : list Z) (T : Z) :
  size_val (size arr) -> size_val T -> 1 <= T <= size arr + 8 ->
  exists v,
    single_thread_sum arr = Ok v /\
    (forall sched r, multi_thread_sum_lock arr T sched = Some r -> r = Ok v) /\
    (forall sched r, multi_thread_sum_atomic arr T sched = Some r -> r = Ok v) /\
    (forall sched r, multi_thread_sum_reduce arr T sched = Some r -> r = Ok v) /\
    (forall s sched, exists more,
        multi_thread_sum s arr T (sched ++ more) = Some (Ok v)).
Proof.
  intros Hn HT [HT1 _]. exists (wrap_int (sum_of arr)).
  split; [by apply single_thread_sum_spec|].
  split_and!; intros; by eapply multi_thread_sum_spec.
Qed.

Lemma strategies_agree_witness :
  size_val (size [5; -7; 11]) /\ size_val 2 /\ 1 <= 2 <= size [5; -7; 11] + 8 /\
  exists v,
    single_thread_sum [5; -7; 11] = Ok v /\
    (forall sched r, multi_thread_sum_lock [5; -7; 11] 2 sched = Some r -> r = Ok v) /\
    (forall sched r, multi_thread_sum_atomic [5; -7; 11] 2 sched = Some r -> r = Ok v) /\
    (forall sched r, multi_thread_sum_reduce [5; -7; 11] 2 sched = Some r -> r = Ok v) /\
    (forall s sched, exists more,
        multi_thread_sum s [5; -7; 11] 2 (sched ++ more) = Some (Ok v)).
Proof.
  assert (H1 : size_val (size [5; -7; 11])) by size_vals.
  assert (H2 : size_val 2) by size_vals.
  assert (H3 : 1 <= 2 <= size [5; -7; 11] + 8) by (unfold size; simpl; lia).
  split; [exact H1|]. split; [exact H2|]. split; [exact H3|].
  exact (strategies_agree [5; -7; 11] 2 H1 H2 H3).
Defined.

(** C2: for every [n >= 0] and [T >= 1] (both of type [size_t]) the chunks
    [start_i = i * (n / T)], [end_i = (i == T-1 ? n : (i+1) * (n / T))] that
    the workers compute are pairwise disjoint, their union is exactly
    [[0, n)], and the last chunk ends at [n]. *)
Theorem chunks_partition (n T : Z) :
  size_val n -> size_val T -> 1 <= T ->
  (forall i, 0 <= i < T ->
     chunk_bounds n T i = Ok (i * (n / T), if i =? T - 1 then n else (i + 1) * (n / T))) /\
  (forall i j x, 0 <= i < T -> 0 <= j < T ->
     in_chunk n T i x -> in_chunk n T j x -> i = j) /\
  (forall x, 0 <= x < n <-> exists i, 0 <= i < T /\ in_chunk n T i x) /\
  (exists st, chunk_bounds n T (T - 1) = Ok (st, n)).
Proof.
  intros Hn HT HT1. split_and!.
  - by apply chunk_bounds_eq.
  - by apply chunks_disjoint.
  - intros x. split.
    + by apply chunks_cover.
    + intros (i & Hi & Hx). by eapply chunks_within.
  - by apply last_chunk_end.
Qed.

Lemma chunks_partition_witness :
  size_val 10 /\ size_val 4 /\ 1 <= 4 /\
  (forall i, 0 <= i < 4 ->
     chunk_bounds 10 4 i = Ok (i * (10 / 4), if i =? 4 - 1 then 10 else (i + 1) * (10 / 4))) /\
  (forall i j x, 0 <= i < 4 -> 0 <= j < 4 ->
     in_chunk 10 4 i x -> in_chunk 10 4 j x -> i = j) /\
  (forall x, 0 <= x < 10 <-> exists i, 0 <= i < 4 /\ in_chunk 10 4 i x) /\
  (exists st, chunk_bounds 10 4 (4 - 1) = Ok (st, 10)).
Proof.
  assert (H1 : size_val 10) by size_vals.
  assert (H2 : size_val 4) by size_vals.
  assert (H3 : 1 <= 4) by lia.
  split; [exact H1|]. split; [exact H2|]. split; [exact H3|].
  exact (chunks_partition 10 4 H1 H2 H3).
Defined.

Lemma outcome_not_fault s arr T sched f :
  size_val (size arr) -> size_val T -> 1 <= T ->
  multi_thread_sum s arr T sched <> Some (Fault f).
Proof.
  intros Hn HT HT1 Hf.
  by destruct (multi_thread_sum_spec s arr T sched Hn HT HT1) as [Hr _];
    specialize (Hr _ Hf).
Qed.

Lemma reachable_read s arr T c k t i :
  size_val (size arr) -> size_val T -> 1 <= T ->
  reachable s arr T c -> c_threads c !! k = Some t -> next_read (t_pc t) = Some i ->
  0 <= Z.of_nat k < T /\ in_chunk (size arr) T (Z.of_nat k) i.
Proof.
  intros Hn HT HT1 Hc Hk Hr.
  apply (reachable_invariant s arr T Hn HT HT1) in Hc.
  destruct (inv_idx s arr T c k t Hc Hk) as [Hidx Hi]. rewrite Hidx in Hi.
  split; [done|]. by eapply read_in_chunk.
Qed.

(** C3: for every array of [size >= 0] and every thread count [T >= 1],
    none of the four summation functions faults: the sequential scan
    returns a value, no schedule makes a strategy end in a fault, no
    reachable configuration has faulted (so no division by zero has
    occurred), and every index [i] that a worker is about to read
    satisfies [0 <= i < size]. *)
Theorem no_fault (arr : list Z) (T : Z) :
  size_val (size arr) -> size_val T -> 1 <= T ->
  (exists v, single_thread_sum arr = Ok v) /\
  (forall s sched f, multi_thread_sum s arr T sched <> Some (Fault f)) /\
  (forall s c, reachable s arr T c ->
     c_fault c = None /\
     forall k t i, c_threads c !! k = Some t -> next_read (t_pc t) = Some i ->
                   0 <= i < size arr).
Proof.
  intros Hn HT HT1. split_and!.
  - eexists. by apply single_thread_sum_spec.
  - intros s sched f. by apply outcome_not_fault.
  - intros s c Hc. split.
    + by apply (inv_fault s arr T), reachable_invariant.
    + intros k t i Hk Hr.
      destruct (reachable_read s arr T c k t i Hn HT HT1 Hc Hk Hr) as [Hi Hin].
      by eapply (chunks_within (size arr) T).
Qed.

Lemma no_fault_witness :
  size_val (size [4; 5; 6]) /\ size_val 5 /\ 1 <= 5 /\
  (exists v, single_thread_sum [4; 5; 6] = Ok v) /\
  (forall s sched f, multi_thread_sum s [4; 5; 6] 5 sched <> Some (Fault f)) /\
  (forall s c, reachable s [4; 5; 6] 5 c ->
     c_fault c = None /\
     forall k t i, c_threads c !! k = Some t -> next_read (t_pc t) = Some i ->
                   0 <= i < size [4; 5; 6]).
Proof.
  assert (H1 : size_val (size [4; 5; 6])) by size_vals.
  assert (H2 : size_val 5) by size_vals.
  assert (H3 : 1 <= 5) by lia.
  split; [exact H1|]. split; [exact H2|]. split; [exact H3|].
  exact (no_fault [4; 5; 6] 5 H1 H2 H3).
Defined.

(** C4: for every thread count [T >= 1], every strategy (sequential, lock,
    atomic, reduce) returns [0] on the empty array and [arr[0]] on an array
    of one element. *)
Theorem degenerate_sizes (T x : Z) :
  size_val T -> 1 <= T -> int_val x ->
  (single_thread_sum [] = Ok 0 /\
   forall s sched,
     (forall r, multi_thread_sum s [] T sched = Some r -> r = Ok 0) /\
     (exists more, multi_thread_sum s [] T (sched ++ more) = Some (Ok 0))) /\
  (single_thread_sum [x] = Ok x /\
   forall s sched,
     (forall r, multi_thread_sum s [x] T sched = Some r -> r = Ok x) /\
     (exists more, multi_thread_sum s [x] T (sched ++ more) = Some (Ok x))).
Proof.
  intros HT HT1 Hx.
  assert (H0 : size_val (size [])) by size_vals.
  assert (H1 : size_val (size [x])) by size_vals.
  assert (Hx' : wrap_int (sum_of [x]) = x)
    by (simpl; rewrite Z.add_0_r; by apply wrap_int_id).
  split; (split; [|intros s sched]).
  - done.
  - apply (multi_thread_sum_spec s [] T sched H0 HT HT1).
  - rewrite (single_thread_sum_spec [x] H1). by rewrite Hx'.
  - pose proof (multi_thread_sum_spec s [x] T sched H1 HT HT1) as Hspec.
    by rewrite Hx' in Hspec.
Qed.

Lemma degenerate_sizes_witness :
  size_val 6 /\ 1 <= 6 /\ int_val (-9) /\
  (single_thread_sum [] = Ok 0 /\
   forall s sched,
     (forall r, multi_thread_sum s [] 6 sched = Some r -> r = Ok 0) /\
     (exists more, multi_thread_sum s [] 6 (sched ++ more) = Some (Ok 0))) /\
  (single_thread_sum [-9] = Ok (-9) /\
   forall s sched,
     (forall r, multi_thread_sum s [-9] 6 sched = Some r -> r = Ok (-9)) /\
     (exists more, multi_thread_sum s [-9] 6 (sched ++ more) = Some (Ok (-9)))).
Proof.
  assert (H1 : size_val 6) by size_vals.
  assert (H2 : 1 <= 6) by lia.
  assert (H3 : int_val (-9)) by (unfold int_val, int_min, int_max; lia).
  split; [exact H1|]. split; [exact H2|]. split; [exact H3|].
  exact (degenerate_sizes 6 (-9) H1 H2 H3).
Defined.

Lemma wrap_int_congr z : (wrap_int z - z) mod int_modulus = 0.
Proof.
  unfold wrap_int. rewrite (Z.mod_eq (z - int_min)) by (unfold int_modulus; lia).
  replace (z - int_min - int_modulus * ((z - int_min) / int_modulus) + int_min - z)
    with (- ((z - int_min) / int_modulus) * int_modulus) by lia.
  apply Z.mod_mul. unfold int_modulus. lia.
Qed.

(** C5: the accumulators add modulo [2^32]; on an array whose mathematical
    sum is outside the range of [int] no strategy reports anything: the
    sequential scan and, under every schedule, the lock, atomic and reduce
    strategies all return the same [int], the one congruent to the
    mathematical sum modulo [2^32] (and different from it). *)
Theorem overflow_wraps (arr : list Z) (T : Z) :
  size_val (size arr) -> size_val T -> 1 <= T -> ~ int_val (sum_of arr) ->
  (forall a b, int_val (int_add a b) /\ (int_add a b - (a + b)) mod int_modulus = 0) /\
  exists v,
    int_val v /\ v <> sum_of arr /\ (v - sum_of arr) mod int_modulus = 0 /\
    single_thread_sum arr = Ok v /\
    forall s sched,
      (forall r, multi_thread_sum s arr T sched = Some r -> r = Ok v) /\
      (exists more, multi_thread_sum s arr T (sched ++ more) = Some (Ok v)).
Proof.
  intros Hn HT HT1 Hover. split.
  - intros a b. split; [apply wrap_int_range|apply wrap_int_congr].
  - exists (wrap_int (sum_of arr)). split_and!.
    + apply wrap_int_range.
    + intros Heq. apply Hover. rewrite <- Heq. apply wrap_int_range.
    + apply wrap_int_congr.
    + by apply single_thread_sum_spec.
    + intros s sched. by apply multi_thread_sum_spec.
Qed.

Lemma overflow_wraps_witness :
  size_val (size [2147483647; 1]) /\ size_val 2 /\ 1 <= 2 /\
  ~ int_val (sum_of [2147483647; 1]) /\
  (forall a b, int_val (int_add a b) /\ (int_add a b - (a + b)) mod int_modulus = 0) /\
  exists v,
    int_val v /\ v <> sum_of [2147483647; 1] /\
    (v - sum_of [2147483647; 1]) mod int_modulus = 0 /\
    single_thread_sum [2147483647; 1] = Ok v /\
    forall s sched,
      (forall r, multi_thread_sum s [2147483647; 1] 2 sched = Some r -> r = Ok v) /\
      (exists more, multi_thread_sum s [2147483647; 1] 2 (sched ++ more) = Some (Ok v)).
Proof.
  assert (H1 : size_val (size [2147483647; 1])) by size_vals.
  assert (H2 : size_val 2) by size_vals.
  assert (H3 : 1 <= 2) by lia.
  assert (H4 : ~ int_val (sum_of [2147483647; 1]))
    by (unfold int_val, int_min, int_max; simpl; lia).
  split; [exact H1|]. split; [exact H2|]. split; [exact H3|]. split; [exact H4|].
  exact (overflow_wraps [2147483647; 1] 2 H1 H2 H3 H4).
Defined.

(** C9: the lock, atomic and reduce strategies leave the array as it was:
    for every array, every [T >= 1] and every schedule, the array of the
    configuration that is reached, a returned one included, is the array
    the strategy was called on, element for element.  (The sequential scan
    receives the vector by reference to const and is a function of its
    elements.) *)
Theorem array_unchanged (arr : list Z) (T : Z) :
  1 <= T ->
  forall s sched,
    c_arr (run s T sched (init arr)) = arr /\
    forall i, c_arr (run s T sched (init arr)) !! i = arr !! i.
Proof.
  intros _ s sched. rewrite run_frame. done.
Qed.

Lemma array_unchanged_witness :
  1 <= 3 /\
  forall s sched,
    c_arr (run s 3 sched (init [8; 9])) = [8; 9] /\
    forall i, c_arr (run s 3 sched (init [8; 9])) !! i = [8; 9] !! i.
Proof.
  assert (H1 : 1 <= 3) by lia.
  split; [exact H1|]. exact (array_unchanged [8; 9] 3 H1).
Defined.

Lemma few_elements_bounds n T i :
  size_val n -> size_val T -> 0 < n < T -> 0 <= i < T ->
  chunk_bounds n T i = Ok (0, if i =? T - 1 then n else 0).
Proof.
  intros Hn HT HnT Hi. rewrite chunk_bounds_eq by (done || lia).
  rewrite Z.div_small by lia. do 2 f_equal; [lia|]. destruct (i =? T - 1); lia.
Qed.

(** C8: on [arr = [1,2,3,4,5,6,7,8]] with [T = 4] the workers compute the
    chunks [[0,2)], [[2,4)], [[4,6)], [[6,8)]; whatever the schedule, the
    local sum a worker is about to add (lock, atomic) or has left in its
    slot (reduce) is [3], [7], [11], [15] for workers 0 to 3; the
    sequential scan returns [36], and so does each of the three strategies
    under every schedule under which it returns, the round-robin schedule
    of twenty rounds being one. *)
Theorem scenario_eight_elements_four_threads :
  let arr := [1; 2; 3; 4; 5; 6; 7; 8] in
  chunk_bounds (size arr) 4 <$> [0; 1; 2; 3]
    = [Ok (0, 2); Ok (2, 4); Ok (4, 6); Ok (6, 8)] /\
  (forall s c k t v, reachable s arr 4 c -> c_threads c !! k = Some t ->
     t_pc t = WAcquire v \/ t_pc t = WLoad v \/ t_pc t = WFetchAdd v ->
     [3; 7; 11; 15] !! k = Some v) /\
  (forall c k t, reachable Reduce arr 4 c -> c_threads c !! k = Some t ->
     t_pc t = WDone -> c_partial c !! k = [3; 7; 11; 15] !! k) /\
  single_thread_sum arr = Ok 36 /\
  (forall s sched r, multi_thread_sum s arr 4 sched = Some r -> r = Ok 36) /\
  multi_thread_sum_lock arr 4 (round_robin 4 20) = Some (Ok 36) /\
  multi_thread_sum_atomic arr 4 (round_robin 4 20) = Some (Ok 36) /\
  multi_thread_sum_reduce arr 4 (round_robin 4 20) = Some (Ok 36).
Proof.
  intros arr.
  assert (Hn : size_val (size arr)) by size_vals.
  assert (HT : size_val 4) by size_vals.
  assert (HT1 : 1 <= 4) by lia.
  assert (Hlocal : forall k, (k < 4)%nat ->
            [3; 7; 11; 15] !! k = Some (local_sum_of arr 4 (Z.of_nat k))).
  { intros k Hk. destruct k as [|[|[|[|k]]]]; [vm_compute; reflexivity..|lia]. }
  assert (Hk4 : forall s c k t, reachable s arr 4 c -> c_threads c !! k = Some t ->
            invariant s arr 4 c /\ (k < 4)%nat).
  { intros s c k t Hc Hk. apply (reachable_invariant s arr 4 Hn HT HT1) in Hc.
    split; [done|]. destruct (inv_idx s arr 4 c k t Hc Hk). lia. }
  split; [vm_compute; reflexivity|]. split; [|split; [|split; [|split]]].
  - intros s c k t v Hc Hk Hpc. destruct (Hk4 s c k t Hc Hk) as [Hinv Hlt].
    rewrite (Hlocal k Hlt). f_equal. symmetry. by eapply commit_value.
  - intros c k t Hc Hk Hpc. destruct (Hk4 Reduce c k t Hc Hk) as [Hinv Hlt].
    rewrite (Hlocal k Hlt). by eapply slot_value.
  - vm_compute. reflexivity.
  - intros s sched r Hr.
    destruct (multi_thread_sum_spec s arr 4 sched Hn HT HT1) as [Hspec _].
    rewrite (Hspec r Hr). vm_compute. reflexivity.
  - split; [|split]; vm_compute; reflexivity.
Qed.

(** ** Reading the command line *)

(** C6, as the code has it: when [--size] or [--thread] is absent,
    [parse_args] emits the warning and returns the defaults
    [size = 1,000,000] and [thread =] the hardware concurrency hint as it
    is, stored in an [int]; nothing replaces the hint when it is
    unavailable (reported as [0]), so the returned thread count is at least
    [1] exactly when the hint is a positive [int]. *)
Theorem parse_args_defaults (args : cmd_args) (hardware_concurrency : Z) :
  0 <= hardware_concurrency < int_modulus ->
  is_present args "--size" = false \/ is_present args "--thread" = false ->
  parse_args args hardware_concurrency
    = Returned warning 1000000 (wrap_int hardware_concurrency) /\
  (hardware_concurrency <= int_max -> wrap_int hardware_concurrency = hardware_concurrency) /\
  (1 <= wrap_int hardware_concurrency <-> 1 <= hardware_concurrency <= int_max).
Proof.
  intros Hhw Habsent. split_and!.
  - unfold parse_args. by destruct Habsent as [-> | ->]; rewrite ?orb_true_r.
  - intros Hle. apply wrap_int_id. unfold int_val, int_min, int_max in *. lia.
  - unfold int_modulus, int_max in *.
    destruct (Z_le_gt_dec hardware_concurrency (2 ^ 31 - 1)) as [Hle|Hgt].
    + rewrite wrap_int_id by (unfold int_val, int_min, int_max; lia). lia.
    + replace (wrap_int hardware_concurrency) with (hardware_concurrency - 2 ^ 32); [lia|].
      unfold wrap_int, int_min, int_modulus.
      replace (hardware_concurrency - - 2 ^ 31)
        with (hardware_concurrency - 2 ^ 31 + 1 * 2 ^ 32) by lia.
      rewrite Z.mod_add, Z.mod_small by lia. lia.
Qed.

Lemma parse_args_defaults_witness :
  0 <= 8 < int_modulus /\
  (is_present no_options "--size" = false \/ is_present no_options "--thread" = false) /\
  parse_args no_options 8 = Returned warning 1000000 (wrap_int 8) /\
  (8 <= int_max -> wrap_int 8 = 8) /\
  (1 <= wrap_int 8 <-> 1 <= 8 <= int_max).
Proof.
  assert (H1 : 0 <= 8 < int_modulus) by (unfold int_modulus; lia).
  assert (H2 : is_present no_options "--size" = false \/
               is_present no_options "--thread" = false) by (left; reflexivity).
  split; [exact H1|]. split; [exact H2|].
  exact (parse_args_defaults no_options 8 H1 H2).
Defined.

(** C6 as stated fails: without options and with an unavailable hint
    ([hardware_concurrency() = 0]) the returned thread count is [0], not
    at least [1]. *)
Lemma parse_args_no_fallback :
  parse_args no_options 0 = Returned warning 1000000 0 /\
  ~ (exists log size threads,
       parse_args no_options 0 = Returned log size threads /\ 1 <= threads).
Proof.
  split; [reflexivity|]. intros (log & sz & th & Heq & Hth).
  vm_compute in Heq. injection Heq as _ _ <-. lia.
Qed.

(** C7, as the code has it: when both options are present with a value,
    [parse_args] returns, without warning, the integers [std::stoi] reads
    at the start of the first value of each; a value that [std::stoi]
    rejects (no leading integer, or not an [int]) makes the exception
    leave [parse_args], [--size] being converted first; the defaults are
    not substituted. *)
Theorem parse_args_present (args : cmd_args) (hardware_concurrency : Z)
    (o o' : string) (os os' : list string) :
  is_present args "--size" = true -> is_present args "--thread" = true ->
  get_options args "--size" = o :: os -> get_options args "--thread" = o' :: os' ->
  parse_args args hardware_concurrency =
    match stoi o, stoi o' with
    | inl e, _ => Thrown e
    | inr _, inl e => Thrown e
    | inr size, inr threads => Returned [] size threads
    end.
Proof.
  intros Hs Ht Ho Ho'. unfold parse_args. rewrite Hs, Ht, Ho, Ho'. simpl.
  by destruct (stoi o), (stoi o').
Qed.

Lemma parse_args_present_witness :
  is_present size_abc_thread_4 "--size" = true /\
  is_present size_abc_thread_4 "--thread" = true /\
  get_options size_abc_thread_4 "--size" = "abc"%string :: [] /\
  get_options size_abc_thread_4 "--thread" = "4"%string :: [] /\
  parse_args size_abc_thread_4 8 =
    match stoi "abc", stoi "4" with
    | inl e, _ => Thrown e
    | inr _, inl e => Thrown e
    | inr size, inr threads => Returned [] size threads
    end.
Proof.
  split; [reflexivity|]. split; [reflexivity|]. split; [reflexivity|].
  split; [reflexivity|].
  exact (parse_args_present size_abc_thread_4 8 "abc" "4" [] []
           eq_refl eq_refl eq_refl eq_refl).
Defined.

(** C7 as stated fails: on [--size abc --thread 4] the call of
    [parse_args] ends with [std::invalid_argument] thrown; it does not
    return, with the defaults or otherwise. *)
Lemma parse_args_malformed_throws :
  parse_args size_abc_thread_4 8 = Thrown InvalidArgument /\
  ~ (exists log size threads,
       parse_args size_abc_thread_4 8 = Returned log size threads).
Proof.
  split; [reflexivity|]. intros (log & sz & th & Heq). vm_compute in Heq. done.
Qed.

(** * Further properties of the code *)

(** ** A thread count of zero *)

Lemma zero_threads_lock_states sched : forall c,
  c_fault c = None -> c_threads c = [] ->
  c_main c = MEntry \/
    (c_sum c = 0 /\ (c_main c = MSpawn 0 \/ c_main c = MJoin 0 \/ c_main c = MReturn 0)) ->
  let c' := run Lock 0 sched c in
  c_fault c' = None /\ c_threads c' = [] /\
  (c_main c' = MEntry \/
    (c_sum c' = 0 /\ (c_main c' = MSpawn 0 \/ c_main c' = MJoin 0 \/ c_main c' = MReturn 0))).
Proof.
  induction sched as [|who sched IH]; intros c Hf Ht Hm; [done|].
  simpl. destruct (step Lock 0 c who) as [c1|] eqn:Hstep; simpl; [|by apply IH].
  unfold step in Hstep. rewrite Hf, Ht in Hstep.
  destruct who as [|k]; [|done]. simpl in Hstep.
  unfold main_lock, spawn_join in Hstep. rewrite Ht in Hstep.
  destruct Hm as [Hm|[Hs [Hm|[Hm|Hm]]]]; rewrite Hm in Hstep; simpl in Hstep;
    try done; injection Hstep as <-; apply IH; simpl; rewrite ?Hs; auto 6.
Qed.

(** X1: called with zero threads, [multi_thread_sum_lock] spawns nothing,
    divides nothing and returns [0] whatever the array holds: under every
    schedule a returned call has returned [0] without fault, and from
    wherever a schedule has led, four more steps of the calling thread make
    it return. *)
Theorem zero_threads_lock_returns_zero (arr : list Z) (sched : list tid) :
  (forall r, multi_thread_sum_lock arr 0 sched = Some r -> r = Ok 0) /\
  (multi_thread_sum_lock arr 0 (sched ++ [Main; Main; Main; Main]) = Some (Ok 0)) /\
  (c_threads (run Lock 0 sched (init arr)) = []).
Proof.
  unfold multi_thread_sum_lock, multi_thread_sum.
  destruct (zero_threads_lock_states sched (init arr)) as (Hf & Ht & Hm);
    [done|done|by left|].
  split_and!; [| |done].
  - intros r. unfold outcome. rewrite Hf.
    destruct Hm as [Hm|[Hs [Hm|[Hm|Hm]]]]; rewrite Hm; try done.
    by intros [= <-].
  - rewrite run_app. destruct (run Lock 0 sched (init arr)) as [a sm mx ps m ts f].
    simpl in *. subst.
    by destruct Hm as [Hm|[Hs [Hm|[Hm|Hm]]]]; subst.
Qed.

(** ** The critical section of the lock strategy *)

(** X3: in every configuration [multi_thread_sum_lock] can reach, at most
    one thread is between the construction of its [lock_guard] and its
    release, and that thread is the one the mutex records as its holder. *)
Theorem mutual_exclusion (arr : list Z) (T : Z) :
  size_val (size arr) -> size_val T -> 1 <= T ->
  forall c, reachable Lock arr T c ->
    (forall k k' t t',
       c_threads c !! k = Some t -> c_threads c !! k' = Some t' ->
       holds_mtx (t_pc t) = true -> holds_mtx (t_pc t') = true -> k = k') /\
    (forall k t, c_threads c !! k = Some t ->
       (holds_mtx (t_pc t) = true <-> c_mtx c = Some k)).
Proof.
  intros Hn HT HT1 c Hc. apply (reachable_invariant Lock arr T Hn HT HT1) in Hc.
  split.
  - intros k k' t t' Hk Hk' Hh Hh'.
    pose proof (inv_holder _ _ _ _ Hc k t Hk Hh) as H1.
    pose proof (inv_holder _ _ _ _ Hc k' t' Hk' Hh') as H2. congruence.
  - intros k t Hk. by apply (mtx_iff Lock arr T).
Qed.

Lemma mutual_exclusion_witness :
  size_val (size [1; 2; 3; 4]) /\ size_val 2 /\ 1 <= 2 /\
  forall c, reachable Lock [1; 2; 3; 4] 2 c ->
    (forall k k' t t',
       c_threads c !! k = Some t -> c_threads c !! k' = Some t' ->
       holds_mtx (t_pc t) = true -> holds_mtx (t_pc t') = true -> k = k') /\
    (forall k t, c_threads c !! k = Some t ->
       (holds_mtx (t_pc t) = true <-> c_mtx c = Some k)).
Proof.
  assert (H1 : size_val (size [1; 2; 3; 4])) by size_vals.
  assert (H2 : size_val 2) by size_vals.
  assert (H3 : 1 <= 2) by lia.
  split; [exact H1|]. split; [exact H2|]. split; [exact H3|].
  exact (mutual_exclusion [1; 2; 3; 4] 2 H1 H2 H3).
Defined.

(** A step of a worker that changes the shared total is the step that adds
    the worker's local sum, taken by a thread that had not added it yet. *)
Lemma sum_changing_step s arr T c k t c' :
  invariant s arr T c -> c_threads c !! k = Some t ->
  worker_step s T k t c = Some c' -> c_sum c' <> c_sum c ->
  c_sum c' = int_add (c_sum c) (local_sum_of arr T (Z.of_nat k)) /\
  c_mtx c' = c_mtx c /\
  committed (t_pc t) = false /\
  (s = Lock /\ holds_mtx (t_pc t) = true \/ s = Atomic) /\
  exists t', c_threads c' !! k = Some t' /\ committed (t_pc t') = true.
Proof.
  intros Hc Hk Hstep Hne.
  destruct (inv_threads _ _ _ _ Hc k t Hk) as [Hidx Hok]. unfold pc_ok in Hok.
  rewrite Hidx in Hok. apply lookup_lt_Some in Hk.
  destruct s; simpl in Hstep;
    unfold thread_sum_lock, thread_sum_atomic, thread_sum_reduce in Hstep;
    destruct (t_pc t) eqn:Hpc; try done;
    repeat case_match; try done; injection Hstep as <-; simpl in *; try done.
  - destruct Hok as [_ ->]. split_and!; try done; [by left|].
    eexists. by rewrite list_lookup_insert_eq.
  - destruct Hok as [_ ->]. split_and!; try done; [by right|].
    eexists. by rewrite list_lookup_insert_eq.
Qed.

(** X4: in the lock strategy a worker writes the shared [sum] only while
    it holds the mutex: whenever a step of thread [k] changes [sum], the
    mutex is held by [k] before and after the step, and the new value is
    the old one plus the local sum of [k]. *)
Theorem sum_written_under_mutex (arr : list Z) (T : Z) :
  size_val (size arr) -> size_val T -> 1 <= T ->
  forall c k c', reachable Lock arr T c ->
    step Lock T c (Worker k) = Some c' -> c_sum c' <> c_sum c ->
    c_mtx c = Some k /\ c_mtx c' = Some k /\
    c_sum c' = int_add (c_sum c) (local_sum_of arr T (Z.of_nat k)).
Proof.
  intros Hn HT HT1 c k c' Hc Hstep Hne.
  apply (reachable_invariant Lock arr T Hn HT HT1) in Hc.
  unfold step in Hstep. rewrite (inv_fault _ _ _ _ Hc) in Hstep.
  destruct (c_threads c !! k) as [t|] eqn:Hk; [|done].
  destruct (sum_changing_step Lock arr T c k t c' Hc Hk Hstep Hne)
    as (Hsum & Hm & _ & [[_ Hh]|?] & _); [|done].
  pose proof (inv_holder _ _ _ _ Hc k t Hk Hh) as Hmk.
  split_and!; [done|congruence|done].
Qed.

Lemma sum_written_under_mutex_witness :
  size_val (size [1; 2; 3; 4]) /\ size_val 2 /\ 1 <= 2 /\
  forall c k c', reachable Lock [1; 2; 3; 4] 2 c ->
    step Lock 2 c (Worker k) = Some c' -> c_sum c' <> c_sum c ->
    c_mtx c = Some k /\ c_mtx c' = Some k /\
    c_sum c' = int_add (c_sum c) (local_sum_of [1; 2; 3; 4] 2 (Z.of_nat k)).
Proof.
  assert (H1 : size_val (size [1; 2; 3; 4])) by size_vals.
  assert (H2 : size_val 2) by size_vals.
  assert (H3 : 1 <= 2) by lia.
  split; [exact H1|]. split; [exact H2|]. split; [exact H3|].
  exact (sum_written_under_mutex [1; 2; 3; 4] 2 H1 H2 H3).
Defined.

(** ** The shared total *)

(** X5: in the lock and atomic strategies every worker adds to the shared
    total at most once and adds exactly its local sum: a step of thread
    [k] either leaves [sum] as it is or replaces it by [sum] plus the local
    sum of [k], taking [k] from "not added" to "added"; and a thread that
    has added stays so. *)
Theorem one_add_per_worker (s : strategy) (arr : list Z) (T : Z) :
  size_val (size arr) -> size_val T -> 1 <= T -> s <> Reduce ->
  forall c k t c', reachable s arr T c -> c_threads c !! k = Some t ->
    step s T c (Worker k) = Some c' ->
    exists t', c_threads c' !! k = Some t' /\
      (committed (t_pc t) = true -> committed (t_pc t') = true /\ c_sum c' = c_sum c) /\
      (c_sum c' = c_sum c \/
       (c_sum c' = int_add (c_sum c) (local_sum_of arr T (Z.of_nat k)) /\
        committed (t_pc t) = false /\ committed (t_pc t') = true)).
Proof.
  intros Hn HT HT1 Hs c k t c' Hc Hk Hstep.
  apply (reachable_invariant s arr T Hn HT HT1) in Hc.
  pose proof (step_invariant s arr T Hn HT HT1 c _ c' Hc Hstep) as Hc'.
  unfold step in Hstep. rewrite (inv_fault _ _ _ _ Hc), Hk in Hstep.
  destruct (Z.eq_dec (c_sum c') (c_sum c)) as [Heq|Hne].
  - assert (exists t', c_threads c' !! k = Some t' /\
              (committed (t_pc t) = true -> committed (t_pc t') = true)) as (t' & Hk' & Hmono).
    { pose proof (lookup_lt_Some _ _ _ Hk) as Hlt.
      destruct s; simpl in Hstep;
        unfold thread_sum_lock, thread_sum_atomic, thread_sum_reduce in Hstep;
        destruct (t_pc t) eqn:Hpc; try done;
        repeat case_match; try done; injection Hstep as <-; simpl;
        try (eexists; split; [by rewrite list_lookup_insert_eq|done]);
        by pose proof (inv_fault _ _ _ _ Hc'). }
    exists t'. split_and!; [done| |by left]. intros Hcm. split; [by apply Hmono|done].
  - destruct (sum_changing_step s arr T c k t c' Hc Hk Hstep Hne)
      as (Hsum & _ & Hun & _ & t' & Hk' & Hcm).
    exists t'. split_and!; [done| |by right]. intros Habs. congruence.
Qed.

Lemma one_add_per_worker_witness :
  size_val (size [1; 2; 3; 4]) /\ size_val 2 /\ 1 <= 2 /\ Atomic <> Reduce /\
  forall c k t c', reachable Atomic [1; 2; 3; 4] 2 c -> c_threads c !! k = Some t ->
    step Atomic 2 c (Worker k) = Some c' ->
    exists t', c_threads c' !! k = Some t' /\
      (committed (t_pc t) = true -> committed (t_pc t') = true /\ c_sum c' = c_sum c) /\
      (c_sum c' = c_sum c \/
       (c_sum c' = int_add (c_sum c) (local_sum_of [1; 2; 3; 4] 2 (Z.of_nat k)) /\
        committed (t_pc t) = false /\ committed (t_pc t') = true)).
Proof.
  assert (H1 : size_val (size [1; 2; 3; 4])) by size_vals.
  assert (H2 : size_val 2) by size_vals.
  assert (H3 : 1 <= 2) by lia.
  assert (H4 : Atomic <> Reduce) by discriminate.
  split; [exact H1|]. split; [exact H2|]. split; [exact H3|]. split; [exact H4|].
  exact (one_add_per_worker Atomic [1; 2; 3; 4] 2 H1 H2 H3 H4).
Defined.

(** X6: no update is lost: in every configuration the lock and atomic
    strategies can reach, the shared total is the wrapped sum of the local
    sums of exactly the workers that have added theirs. *)
Theorem no_lost_update (s : strategy) (arr : list Z) (T : Z) :
  size_val (size arr) -> size_val T -> 1 <= T -> s <> Reduce ->
  forall c, reachable s arr T c ->
    c_sum c = wrap_int (sum_of (contribution arr T <$> c_threads c)) /\
    forall k t, c_threads c !! k = Some t ->
      contribution arr T t =
        if committed (t_pc t) then wrap_int (chunk_total arr T (Z.of_nat k)) else 0.
Proof.
  intros Hn HT HT1 Hs c Hc. apply (reachable_invariant s arr T Hn HT HT1) in Hc.
  split; [by apply (inv_sum _ _ _ _ Hc)|].
  intros k t Hk. destruct (inv_idx s arr T c k t Hc Hk) as [Hidx _].
  unfold contribution, local_sum_of. by rewrite Hidx.
Qed.

Lemma no_lost_update_witness :
  size_val (size [1; 2; 3; 4]) /\ size_val 2 /\ 1 <= 2 /\ Lock <> Reduce /\
  forall c, reachable Lock [1; 2; 3; 4] 2 c ->
    c_sum c = wrap_int (sum_of (contribution [1; 2; 3; 4] 2 <$> c_threads c)) /\
    forall k t, c_threads c !! k = Some t ->
      contribution [1; 2; 3; 4] 2 t =
        if committed (t_pc t) then wrap_int (chunk_total [1; 2; 3; 4] 2 (Z.of_nat k)) else 0.
Proof.
  assert (H1 : size_val (size [1; 2; 3; 4])) by size_vals.
  assert (H2 : size_val 2) by size_vals.
  assert (H3 : 1 <= 2) by lia.
  assert (H4 : Lock <> Reduce) by discriminate.
  split; [exact H1|]. split; [exact H2|]. split; [exact H3|]. split; [exact H4|].
  exact (no_lost_update Lock [1; 2; 3; 4] 2 H1 H2 H3 H4).
Defined.

(** ** Waiting and termination *)

(** X7: no strategy deadlocks: in every configuration it can reach and in
    which it has not returned yet, at least one thread (the calling thread
    or a worker) can take a step. *)
Theorem no_deadlock (s : strategy) (arr : list Z) (T : Z) :
  size_val (size arr) -> size_val T -> 1 <= T ->
  forall c, reachable s arr T c -> outcome c = None ->
    exists who c', step s T c who = Some c'.
Proof.
  intros Hn HT HT1 c Hc Hout. apply (progress s arr T); [|done].
  by apply reachable_invariant.
Qed.

Lemma no_deadlock_witness :
  size_val (size [1; 2; 3; 4]) /\ size_val 2 /\ 1 <= 2 /\
  forall c, reachable Lock [1; 2; 3; 4] 2 c -> outcome c = None ->
    exists who c', step Lock 2 c who = Some c'.
Proof.
  assert (H1 : size_val (size [1; 2; 3; 4])) by size_vals.
  assert (H2 : size_val 2) by size_vals.
  assert (H3 : 1 <= 2) by lia.
  split; [exact H1|]. split; [exact H2|]. split; [exact H3|].
  exact (no_deadlock Lock [1; 2; 3; 4] 2 H1 H2 H3).
Defined.

(** X8: the workers of the atomic and reduce strategies never wait: in
    every reachable configuration every spawned thread that has not
    returned can take its next step, whatever the other threads do. *)
Theorem workers_never_wait (s : strategy) (arr : list Z) (T : Z) :
  size_val (size arr) -> size_val T -> 1 <= T -> s <> Lock ->
  forall c k t, reachable s arr T c -> c_threads c !! k = Some t ->
    t_pc t <> WDone -> exists c', step s T c (Worker k) = Some c'.
Proof.
  intros Hn HT HT1 Hs c k t Hc Hk Hnd.
  apply (reachable_invariant s arr T Hn HT HT1) in Hc.
  unfold step. rewrite (inv_fault _ _ _ _ Hc), Hk.
  destruct (worker_enabled s arr T c k t Hc Hk Hnd) as [?|(acc & k0 & Hpc & _)]; [done|].
  destruct (inv_threads _ _ _ _ Hc k t Hk) as [_ Hok]. unfold pc_ok in Hok.
  rewrite Hpc in Hok. by destruct Hok.
Qed.

Lemma workers_never_wait_witness :
  size_val (size [1; 2; 3; 4]) /\ size_val 2 /\ 1 <= 2 /\ Reduce <> Lock /\
  forall c k t, reachable Reduce [1; 2; 3; 4] 2 c -> c_threads c !! k = Some t ->
    t_pc t <> WDone -> exists c', step Reduce 2 c (Worker k) = Some c'.
Proof.
  assert (H1 : size_val (size [1; 2; 3; 4])) by size_vals.
  assert (H2 : size_val 2) by size_vals.
  assert (H3 : 1 <= 2) by lia.
  assert (H4 : Reduce <> Lock) by discriminate.
  split; [exact H1|]. split; [exact H2|]. split; [exact H3|]. split; [exact H4|].
  exact (workers_never_wait Reduce [1; 2; 3; 4] 2 H1 H2 H3 H4).
Defined.

(** X9: in the lock strategy a worker waits only for the mutex: a spawned
    thread that has not returned and cannot move stands before its
    [lock_guard], the mutex is held by another thread, and that thread can
    move. *)
Theorem lock_waits_only_for_mutex (arr : list Z) (T : Z) :
  size_val (size arr) -> size_val T -> 1 <= T ->
  forall c k t, reachable Lock arr T c -> c_threads c !! k = Some t ->
    t_pc t <> WDone -> step Lock T c (Worker k) = None ->
    (exists local_sum, t_pc t = WAcquire local_sum) /\
    exists k0 c', k0 <> k /\ c_mtx c = Some k0 /\ step Lock T c (Worker k0) = Some c'.
Proof.
  intros Hn HT HT1 c k t Hc Hk Hnd Hblocked.
  apply (reachable_invariant Lock arr T Hn HT HT1) in Hc.
  unfold step in *. rewrite (inv_fault _ _ _ _ Hc) in *. rewrite Hk in Hblocked.
  destruct (worker_enabled Lock arr T c k t Hc Hk Hnd)
    as [[c' Hc']|(acc & k0 & Hpc & Hm)]; [congruence|].
  split; [by exists acc|].
  destruct (inv_owner _ _ _ _ Hc k0 Hm) as (t0 & Hk0 & Hh).
  destruct (holder_enabled Lock arr T c k0 t0 Hc Hk0 Hh) as [c' Hc'].
  exists k0, c'. split_and!; [|done|by rewrite Hk0].
  intros ->. rewrite Hk in Hk0. injection Hk0 as <-. by rewrite Hpc in Hh.
Qed.

Lemma lock_waits_only_for_mutex_witness :
  size_val (size [1; 2; 3; 4]) /\ size_val 2 /\ 1 <= 2 /\
  forall c k t, reachable Lock [1; 2; 3; 4] 2 c -> c_threads c !! k = Some t ->
    t_pc t <> WDone -> step Lock 2 c (Worker k) = None ->
    (exists local_sum, t_pc t = WAcquire local_sum) /\
    exists k0 c', k0 <> k /\ c_mtx c = Some k0 /\ step Lock 2 c (Worker k0) = Some c'.
Proof.
  assert (H1 : size_val (size [1; 2; 3; 4])) by size_vals.
  assert (H2 : size_val 2) by size_vals.
  assert (H3 : 1 <= 2) by lia.
  split; [exact H1|]. split; [exact H2|]. split; [exact H3|].
  exact (lock_waits_only_for_mutex [1; 2; 3; 4] 2 H1 H2 H3).
Defined.

Lemma work_nonneg s arr T c :
  size_val (size arr) -> invariant s arr T c -> 0 <= work T c.
Proof.
  intros Hn Hc.
  pose proof (inv_count _ _ _ _ Hc) as Hcount.
  pose proof (inv_main _ _ _ _ Hc) as Hmain. unfold main_ok in Hmain.
  rewrite <- (inv_arr _ _ _ _ Hc) in Hn. destruct Hn as [Hn0 _].
  pose proof (sum_work_nonneg (size (c_arr c)) (c_threads c) Hn0).
  unfold work. destruct (c_main c); simpl; nia.
Qed.

Lemma moves_bounded s arr T sched :
  size_val (size arr) -> size_val T -> 1 <= T ->
  forall c, invariant s arr T c -> Z.of_nat (moves s T sched c) <= work T c.
Proof.
  intros Hn HT HT1. induction sched as [|who sched IH]; intros c Hc; simpl.
  - by eapply work_nonneg.
  - destruct (step s T c who) as [c'|] eqn:Hstep; [|by apply IH].
    pose proof (step_work s arr T Hn HT HT1 c who c' Hc Hstep) as Hw.
    pose proof (IH c' (step_invariant s arr T Hn HT HT1 c who c' Hc Hstep)). lia.
Qed.

(** X10: every strategy terminates: whatever the schedule, however long,
    the threads take at most [2 T + 3 + T (n + 7)] steps in all, [n] being
    the length of the array; a longer schedule only picks threads that
    cannot move. *)
Theorem steps_bounded (s : strategy) (arr : list Z) (T : Z) :
  size_val (size arr) -> size_val T -> 1 <= T ->
  forall sched,
    Z.of_nat (moves s T sched (init arr)) <= 2 * T + 3 + T * (size arr + 7).
Proof.
  intros Hn HT HT1 sched.
  pose proof (moves_bounded s arr T sched Hn HT HT1 (init arr)
                (invariant_init s arr T HT1)) as Hb.
  unfold work in Hb. simpl in Hb. lia.
Qed.

Lemma steps_bounded_witness :
  size_val (size [1; 2; 3; 4]) /\ size_val 2 /\ 1 <= 2 /\
  forall sched,
    Z.of_nat (moves Lock 2 sched (init [1; 2; 3; 4])) <= 2 * 2 + 3 + 2 * (size [1; 2; 3; 4] + 7).
Proof.
  assert (H1 : size_val (size [1; 2; 3; 4])) by size_vals.
  assert (H2 : size_val 2) by size_vals.
  assert (H3 : 1 <= 2) by lia.
  split; [exact H1|]. split; [exact H2|]. split; [exact H3|].
  exact (steps_bounded Lock [1; 2; 3; 4] 2 H1 H2 H3).
Defined.

(** ** The join barrier *)

Lemma worker_step_main s T k t c c' :
  worker_step s T k t c = Some c' -> c_main c' = c_main c.
Proof.
  destruct s; simpl;
    unfold thread_sum_lock, thread_sum_atomic, thread_sum_reduce;
    intros Hstep; repeat case_match; try done; by injection Hstep as <-.
Qed.

Lemma returned_thread_stuck s T k t c :
  t_pc t = WDone -> worker_step s T k t c = None.
Proof.
  intros Hpc. destruct s; simpl;
    unfold thread_sum_lock, thread_sum_atomic, thread_sum_reduce; by rewrite Hpc.
Qed.

Lemma returned_main_stuck s T c v : c_main c = MReturn v -> main_step s T c = None.
Proof.
  intros Hm. destruct s; simpl;
    unfold main_lock, main_atomic, main_reduce, spawn_join; by rewrite Hm.
Qed.

(** Once the calling thread has returned, all [T] threads have. *)
Lemma joined_step s arr T c who c' :
  invariant s arr T c ->
  (forall v, c_main c = MReturn v ->
     forall k t, c_threads c !! k = Some t -> t_pc t = WDone) ->
  step s T c who = Some c' ->
  forall v, c_main c' = MReturn v ->
    forall k t, c_threads c' !! k = Some t -> t_pc t = WDone.
Proof.
  intros Hc Hq Hstep v Hv.
  pose proof (inv_main _ _ _ _ Hc) as Hmain. unfold main_ok in Hmain.
  unfold step in Hstep. rewrite (inv_fault _ _ _ _ Hc) in Hstep.
  destruct who as [|k0].
  - destruct (c_main c) as [|i|j|v0] eqn:Hm.
    + destruct s; simpl in Hstep; unfold main_lock, main_atomic, main_reduce in Hstep;
        rewrite Hm in Hstep; repeat case_match; try done;
        injection Hstep as <-; simpl in Hv; congruence.
    + destruct s; simpl in Hstep;
        unfold main_lock, main_atomic, main_reduce, spawn_join in Hstep;
        rewrite Hm in Hstep; repeat case_match; try done;
        injection Hstep as <-; simpl in Hv; congruence.
    + destruct Hmain as (Hlen & Hj & Hdone).
      assert (Hsj : exists ret, spawn_join ret T c = Some c').
      { destruct s; simpl in Hstep; unfold main_lock, main_atomic, main_reduce in Hstep;
          rewrite Hm in Hstep; eauto. }
      destruct Hsj as [ret Hsj]. unfold spawn_join in Hsj. rewrite Hm in Hsj.
      destruct (c_threads c !! j) as [tj|] eqn:Hjl.
      * repeat case_match; try done. injection Hsj as <-. simpl in Hv. congruence.
      * injection Hsj as <-. simpl. intros k t Hk. apply (Hdone k t); [|done].
        apply lookup_ge_None in Hjl. apply lookup_lt_Some in Hk. lia.
    + by rewrite (returned_main_stuck s T c v0 Hm) in Hstep.
  - destruct (c_threads c !! k0) as [t0|] eqn:Hk0; [|done].
    rewrite (worker_step_main s T k0 t0 c c' Hstep) in Hv.
    by rewrite (returned_thread_stuck s T k0 t0 c (Hq v Hv k0 t0 Hk0)) in Hstep.
Qed.

Lemma joined_run s arr T sched :
  size_val (size arr) -> size_val T -> 1 <= T ->
  forall c, invariant s arr T c ->
    (forall v, c_main c = MReturn v ->
       forall k t, c_threads c !! k = Some t -> t_pc t = WDone) ->
    forall v, c_main (run s T sched c) = MReturn v ->
      forall k t, c_threads (run s T sched c) !! k = Some t -> t_pc t = WDone.
Proof.
  intros Hn HT HT1. induction sched as [|who sched IH]; intros c Hc Hq; [done|].
  simpl. destruct (step s T c who) as [c'|] eqn:Hstep; simpl; [|by apply IH].
  apply IH; [by eapply step_invariant|by eapply joined_step].
Qed.

Lemma returned_all_done s arr T c v :
  size_val (size arr) -> size_val T -> 1 <= T ->
  reachable s arr T c -> c_main c = MReturn v ->
  forall k t, c_threads c !! k = Some t -> t_pc t = WDone.
Proof.
  intros Hn HT HT1 [sched ->].
  apply (joined_run s arr T sched Hn HT HT1); [by apply invariant_init|done].
Qed.

Lemma returned_count s arr T sched :
  size_val (size arr) -> size_val T -> 1 <= T ->
  forall c, invariant s arr T c ->
    (forall v, c_main c = MReturn v -> Z.of_nat (length (c_threads c)) = T) ->
    forall v, c_main (run s T sched c) = MReturn v ->
      Z.of_nat (length (c_threads (run s T sched c))) = T.
Proof.
  intros Hn HT HT1. induction sched as [|who sched IH]; intros c Hc Hq; [done|].
  simpl. destruct (step s T c who) as [c'|] eqn:Hstep; simpl; [|by apply IH].
  apply IH; [by eapply step_invariant|]. intros v Hv.
  pose proof (inv_main _ _ _ _ Hc) as Hmain. unfold main_ok in Hmain.
  unfold step in Hstep. rewrite (inv_fault _ _ _ _ Hc) in Hstep.
  destruct who as [|k0].
  - destruct (c_main c) as [|i|j|v0] eqn:Hm.
    + destruct s; simpl in Hstep; unfold main_lock, main_atomic, main_reduce in Hstep;
        rewrite Hm in Hstep; repeat case_match; try done;
        injection Hstep as <-; simpl in Hv; congruence.
    + destruct s; simpl in Hstep;
        unfold main_lock, main_atomic, main_reduce, spawn_join in Hstep;
        rewrite Hm in Hstep; repeat case_match; try done;
        injection Hstep as <-; simpl in Hv; congruence.
    + destruct Hmain as (Hlen & _).
      destruct s; simpl in Hstep;
        unfold main_lock, main_atomic, main_reduce, spawn_join in Hstep;
        rewrite Hm in Hstep; repeat case_match; try done;
        by injection Hstep as <-.
    + by rewrite (returned_main_stuck s T c v0 Hm) in Hstep.
  - destruct (c_threads c !! k0) as [t0|] eqn:Hk0; [|done].
    rewrite (worker_step_main s T k0 t0 c c' Hstep) in Hv.
    pose proof (Hq v Hv) as Hlen.
    assert (Hl : length (c_threads c') = length (c_threads c)).
    { destruct s; simpl in Hstep;
        unfold thread_sum_lock, thread_sum_atomic, thread_sum_reduce in Hstep;
        repeat case_match; try done; injection Hstep as <-; simpl;
        by rewrite ?length_insert. }
    by rewrite Hl.
Qed.

(** X11: the join is a barrier: in every configuration in which one of the
    three strategies has returned, exactly [T] threads were spawned, thread
    [k] with index [k], all of them have returned, the mutex is free, and no
    thread can take a further step. *)
Theorem join_barrier (s : strategy) (arr : list Z) (T : Z) :
  size_val (size arr) -> size_val T -> 1 <= T ->
  forall c v, reachable s arr T c -> c_main c = MReturn v ->
    Z.of_nat (length (c_threads c)) = T /\
    (forall k t, c_threads c !! k = Some t -> t_idx t = Z.of_nat k /\ t_pc t = WDone) /\
    c_mtx c = None /\
    (forall who, step s T c who = None).
Proof.
  intros Hn HT HT1 c v Hr Hv.
  pose proof (returned_all_done s arr T c v Hn HT HT1 Hr Hv) as Hdone.
  pose proof (reachable_invariant s arr T Hn HT HT1 c Hr) as Hc.
  split_and!.
  - destruct Hr as [sched ->].
    by apply (returned_count s arr T sched Hn HT HT1 (init arr)
                (invariant_init s arr T HT1)) with v.
  - intros k t Hk. split; [|by eapply Hdone].
    by destruct (inv_threads _ _ _ _ Hc k t Hk).
  - destruct (c_mtx c) as [k0|] eqn:Hm; [|done].
    destruct (inv_owner _ _ _ _ Hc k0 Hm) as (t0 & Hk0 & Hh).
    by rewrite (Hdone k0 t0 Hk0) in Hh.
  - intros who. unfold step. rewrite (inv_fault _ _ _ _ Hc). destruct who as [|k].
    + by eapply returned_main_stuck.
    + destruct (c_threads c !! k) as [t|] eqn:Hk; [|done].
      apply returned_thread_stuck. by eapply Hdone.
Qed.

Lemma join_barrier_witness :
  size_val (size [1; 2; 3; 4]) /\ size_val 2 /\ 1 <= 2 /\
  forall c v, reachable Atomic [1; 2; 3; 4] 2 c -> c_main c = MReturn v ->
    Z.of_nat (length (c_threads c)) = 2 /\
    (forall k t, c_threads c !! k = Some t -> t_idx t = Z.of_nat k /\ t_pc t = WDone) /\
    c_mtx c = None /\
    (forall who, step Atomic 2 c who = None).
Proof.
  assert (H1 : size_val (size [1; 2; 3; 4])) by size_vals.
  assert (H2 : size_val 2) by size_vals.
  assert (H3 : 1 <= 2) by lia.
  split; [exact H1|]. split; [exact H2|]. split; [exact H3|].
  exact (join_barrier Atomic [1; 2; 3; 4] 2 H1 H2 H3).
Defined.

(** ** The slots of the reduce strategy *)

(** X12: a worker of the reduce strategy writes its own slot and nothing
    else that is shared: a step of thread [k] leaves the array, the other
    slots of [partial_sums], the number of slots and the other threads as
    they are. *)
Theorem reduce_slot_isolation (arr : list Z) (T : Z) :
  size_val (size arr) -> size_val T -> 1 <= T ->
  forall c k c', reachable Reduce arr T c -> step Reduce T c (Worker k) = Some c' ->
    c_arr c' = c_arr c /\
    length (c_partial c') = length (c_partial c) /\
    forall j, j <> k ->
      c_partial c' !! j = c_partial c !! j /\ c_threads c' !! j = c_threads c !! j.
Proof.
  intros Hn HT HT1 c k c' Hc Hstep.
  apply (reachable_invariant Reduce arr T Hn HT HT1) in Hc.
  unfold step in Hstep. rewrite (inv_fault _ _ _ _ Hc) in Hstep.
  destruct (c_threads c !! k) as [t|] eqn:Hk; [|done].
  destruct (inv_idx Reduce arr T c k t Hc Hk) as [Hidx _].
  simpl in Hstep. unfold thread_sum_reduce, store in Hstep. rewrite Hidx, Nat2Z.id in Hstep.
  destruct (t_pc t); try done; repeat case_match; try done;
    injection Hstep as <-; simplify_eq; simpl;
    (split_and!; [done|by rewrite ?length_insert|]);
    intros j Hj; by rewrite ?list_lookup_insert_ne.
Qed.

Lemma reduce_slot_isolation_witness :
  size_val (size [1; 2; 3; 4]) /\ size_val 2 /\ 1 <= 2 /\
  forall c k c', reachable Reduce [1; 2; 3; 4] 2 c ->
    step Reduce 2 c (Worker k) = Some c' ->
    c_arr c' = c_arr c /\
    length (c_partial c') = length (c_partial c) /\
    forall j, j <> k ->
      c_partial c' !! j = c_partial c !! j /\ c_threads c' !! j = c_threads c !! j.
Proof.
  assert (H1 : size_val (size [1; 2; 3; 4])) by size_vals.
  assert (H2 : size_val 2) by size_vals.
  assert (H3 : 1 <= 2) by lia.
  split; [exact H1|]. split; [exact H2|]. split; [exact H3|].
  exact (reduce_slot_isolation [1; 2; 3; 4] 2 H1 H2 H3).
Defined.

(** X13: when [multi_thread_sum_reduce] returns, [partial_sums] has [T]
    slots, slot [k] holds the wrapped sum of the chunk of thread [k], and
    the value returned is the total of the slots. *)
Theorem slots_after_join (arr : list Z) (T : Z) :
  size_val (size arr) -> size_val T -> 1 <= T ->
  forall c v, reachable Reduce arr T c -> c_main c = MReturn v ->
    c_partial c = (fun k => local_sum_of arr T (Z.of_nat k)) <$> seq 0 (Z.to_nat T) /\
    v = total_of (c_partial c).
Proof.
  intros Hn HT HT1 c v Hr Hv.
  pose proof (returned_all_done Reduce arr T c v Hn HT HT1 Hr Hv) as Hdone.
  pose proof (reachable_invariant Reduce arr T Hn HT HT1 c Hr) as Hc.
  assert (Hlen : Z.of_nat (length (c_threads c)) = T).
  { destruct Hr as [sched ->].
    by apply (returned_count Reduce arr T sched Hn HT HT1 (init arr)
                (invariant_init Reduce arr T HT1)) with v. }
  assert (Hne : c_main c <> MEntry) by (by rewrite Hv).
  split.
  - pose proof (inv_partial _ _ _ _ Hc eq_refl Hne) as Hpl.
    apply list_eq. intros i. rewrite list_lookup_fmap.
    destruct (c_threads c !! i) as [t|] eqn:Hi.
    + rewrite lookup_seq_lt by (apply lookup_lt_Some in Hi; lia). simpl.
      by eapply (slot_value Reduce arr T); [..|eapply Hdone].
    + apply lookup_ge_None in Hi. rewrite lookup_seq_ge by lia. simpl.
      apply lookup_ge_None. lia.
  - rewrite (all_done_total Reduce arr T Hn HT HT1 c Hc eq_refl Hne Hlen Hdone).
    pose proof (inv_main _ _ _ _ Hc) as Hmain. unfold main_ok in Hmain.
    by rewrite Hv in Hmain.
Qed.

Lemma slots_after_join_witness :
  size_val (size [1; 2; 3; 4]) /\ size_val 2 /\ 1 <= 2 /\
  forall c v, reachable Reduce [1; 2; 3; 4] 2 c -> c_main c = MReturn v ->
    c_partial c
      = (fun k => local_sum_of [1; 2; 3; 4] 2 (Z.of_nat k)) <$> seq 0 (Z.to_nat 2) /\
    v = total_of (c_partial c).
Proof.
  assert (H1 : size_val (size [1; 2; 3; 4])) by size_vals.
  assert (H2 : size_val 2) by size_vals.
  assert (H3 : 1 <= 2) by lia.
  split; [exact H1|]. split; [exact H2|]. split; [exact H3|].
  exact (slots_after_join [1; 2; 3; 4] 2 H1 H2 H3).
Defined.

(** ** The sizes of the chunks *)

(** X14: the chunks follow one another from index [0], every chunk but the
    last has exactly [n / T] elements, and the last has the [n mod T]
    elements that are left over as well. *)
Theorem chunk_lengths (n T : Z) :
  size_val n -> size_val T -> 1 <= T ->
  (exists e, chunk_bounds n T 0 = Ok (0, e)) /\
  (forall i st e, 0 <= i < T -> chunk_bounds n T i = Ok (st, e) ->
     e - st = if i =? T - 1 then n / T + n mod T else n / T) /\
  (forall i st e, 0 <= i < T - 1 -> chunk_bounds n T i = Ok (st, e) ->
     exists e', chunk_bounds n T (i + 1) = Ok (e, e')).
Proof.
  intros Hn HT HT1. split_and!.
  - rewrite (chunk_bounds_eq n T Hn HT HT1) by lia. eauto.
  - intros i st e Hi. rewrite (chunk_bounds_eq n T Hn HT HT1) by done.
    intros [= <- <-]. pose proof (Z.mod_eq n T ltac:(lia)).
    destruct (Z.eqb_spec i (T - 1)); [subst|]; lia.
  - intros i st e Hi. rewrite !(chunk_bounds_eq n T Hn HT HT1) by lia.
    intros [= <- <-]. destruct (Z.eqb_spec i (T - 1)); [lia|]. eauto.
Qed.

Lemma chunk_lengths_witness :
  size_val 10 /\ size_val 4 /\ 1 <= 4 /\
  (exists e, chunk_bounds 10 4 0 = Ok (0, e)) /\
  (forall i st e, 0 <= i < 4 -> chunk_bounds 10 4 i = Ok (st, e) ->
     e - st = if i =? 4 - 1 then 10 / 4 + 10 mod 4 else 10 / 4) /\
  (forall i st e, 0 <= i < 4 - 1 -> chunk_bounds 10 4 i = Ok (st, e) ->
     exists e', chunk_bounds 10 4 (i + 1) = Ok (e, e')).
Proof.
  assert (H1 : size_val 10) by size_vals.
  assert (H2 : size_val 4) by size_vals.
  assert (H3 : 1 <= 4) by lia.
  split; [exact H1|]. split; [exact H2|]. split; [exact H3|].
  exact (chunk_lengths 10 4 H1 H2 H3).
Defined.

(** ** The sequential scan and the order of the elements *)

Lemma sum_of_perm (a b : list Z) : a ≡ₚ b -> sum_of a = sum_of b.
Proof.
  induction 1 as [|x a b _ IH|x y a|a b c _ IH1 _ IH2]; simpl in *; lia.
Qed.

(** X15: the result of [single_thread_sum] does not depend on the order of
    the elements, wrap-around included: two arrays that are permutations
    of each other have the same sum. *)
Theorem single_thread_sum_permutation (a b : list Z) :
  size_val (size a) -> a ≡ₚ b -> single_thread_sum a = single_thread_sum b.
Proof.
  intros Hn Hp.
  assert (Hn' : size_val (size b)).
  { unfold size in *. by rewrite <- (Permutation_length Hp). }
  by rewrite !single_thread_sum_spec, (sum_of_perm a b Hp).
Qed.

Lemma single_thread_sum_permutation_witness :
  size_val (size [2147483647; 1; -5]) /\ [2147483647; 1; -5] ≡ₚ [-5; 2147483647; 1] /\
  single_thread_sum [2147483647; 1; -5] = single_thread_sum [-5; 2147483647; 1].
Proof.
  assert (H1 : size_val (size [2147483647; 1; -5])) by size_vals.
  assert (H2 : [2147483647; 1; -5] ≡ₚ [-5; 2147483647; 1]).
  { apply Permutation_sym. apply (Permutation_cons_append [2147483647; 1] (-5)). }
  split; [exact H1|]. split; [exact H2|].
  exact (single_thread_sum_permutation _ _ H1 H2).
Defined.

(** X16: [single_thread_sum] is additive over concatenation: the sum of
    [a ++ b] is the [int] sum of the sum of [a] and the sum of [b], none of
    the three scans faulting. *)
Theorem single_thread_sum_concat (a b : list Z) :
  size_val (size (a ++ b)) ->
  exists va vb,
    single_thread_sum a = Ok va /\ single_thread_sum b = Ok vb /\
    single_thread_sum (a ++ b) = Ok (int_add va vb).
Proof.
  intros Hn.
  assert (Ha : size_val (size a))
    by (unfold size_val, size in *; rewrite length_app in Hn; lia).
  assert (Hb : size_val (size b))
    by (unfold size_val, size in *; rewrite length_app in Hn; lia).
  exists (wrap_int (sum_of a)), (wrap_int (sum_of b)).
  rewrite !single_thread_sum_spec by done. split_and!; [done..|].
  unfold int_add. by rewrite wrap_int_add_l, wrap_int_add_r, sum_of_app.
Qed.

Lemma single_thread_sum_concat_witness :
  size_val (size ([2147483647; 1] ++ [-5; 9])) /\
  exists va vb,
    single_thread_sum [2147483647; 1] = Ok va /\ single_thread_sum [-5; 9] = Ok vb /\
    single_thread_sum ([2147483647; 1] ++ [-5; 9]) = Ok (int_add va vb).
Proof.
  assert (H1 : size_val (size ([2147483647; 1] ++ [-5; 9]))) by size_vals.
  split; [exact H1|].
  exact (single_thread_sum_concat [2147483647; 1] [-5; 9] H1).
Defined.

(** ** Spawning and the workers' loops *)

(** X17: the threads are spawned in index order and never more than [T] of
    them: in every reachable configuration at most [T] threads exist, the
    [k]-th one was given index [k], and while the spawning loop runs its
    counter is the number of threads spawned so far. *)
Theorem spawned_in_order (s : strategy) (arr : list Z) (T : Z) :
  size_val (size arr) -> size_val T -> 1 <= T ->
  forall c, reachable s arr T c ->
    Z.of_nat (length (c_threads c)) <= T /\
    (forall k t, c_threads c !! k = Some t -> t_idx t = Z.of_nat k) /\
    (forall i, c_main c = MSpawn i -> i = Z.of_nat (length (c_threads c))) /\
    (forall j, c_main c = MJoin j -> Z.of_nat (length (c_threads c)) = T).
Proof.
  intros Hn HT HT1 c Hc. apply (reachable_invariant s arr T Hn HT HT1) in Hc.
  pose proof (inv_main _ _ _ _ Hc) as Hmain. unfold main_ok in Hmain.
  split_and!.
  - apply Hc.
  - intros k t Hk. by destruct (inv_threads _ _ _ _ Hc k t Hk).
  - intros i Hm. by rewrite Hm in Hmain.
  - intros j Hm. rewrite Hm in Hmain. by destruct Hmain.
Qed.

Lemma spawned_in_order_witness :
  size_val (size [1; 2; 3; 4]) /\ size_val 2 /\ 1 <= 2 /\
  forall c, reachable Lock [1; 2; 3; 4] 2 c ->
    Z.of_nat (length (c_threads c)) <= 2 /\
    (forall k t, c_threads c !! k = Some t -> t_idx t = Z.of_nat k) /\
    (forall i, c_main c = MSpawn i -> i = Z.of_nat (length (c_threads c))) /\
    (forall j, c_main c = MJoin j -> Z.of_nat (length (c_threads c)) = 2).
Proof.
  assert (H1 : size_val (size [1; 2; 3; 4])) by size_vals.
  assert (H2 : size_val 2) by size_vals.
  assert (H3 : 1 <= 2) by lia.
  split; [exact H1|]. split; [exact H2|]. split; [exact H3|].
  exact (spawned_in_order Lock [1; 2; 3; 4] 2 H1 H2 H3).
Defined.

(** X18: the loop invariant of the workers: at the head of its loop, with
    loop variable [i], a worker is inside its chunk [[start, end)] and its
    accumulator (the local variable for lock and atomic, its slot of
    [partial_sums] for reduce) is the wrapped sum of
    [arr[start], ..., arr[i-1]]. *)
Theorem worker_loop_invariant (s : strategy) (arr : list Z) (T : Z) :
  size_val (size arr) -> size_val T -> 1 <= T ->
  forall c k t i e, reachable s arr T c -> c_threads c !! k = Some t ->
    (forall local_sum, t_pc t = WLoop i e local_sum ->
       exists st, chunk_bounds (size arr) T (Z.of_nat k) = Ok (st, e) /\
                  st <= i <= e /\ e <= size arr /\
                  local_sum = wrap_int (range_sum arr st i)) /\
    (t_pc t = WSlotLoop i e ->
       exists st, chunk_bounds (size arr) T (Z.of_nat k) = Ok (st, e) /\
                  st <= i <= e /\ e <= size arr /\
                  c_partial c !! k = Some (wrap_int (range_sum arr st i))).
Proof.
  intros Hn HT HT1 c k t i e Hc Hk.
  apply (reachable_invariant s arr T Hn HT HT1) in Hc.
  destruct (inv_threads _ _ _ _ Hc k t Hk) as [Hidx Hok]. unfold pc_ok in Hok.
  destruct (inv_idx s arr T c k t Hc Hk) as [_ Hi].
  rewrite Hidx in Hok, Hi. split.
  - intros acc Hpc. rewrite Hpc in Hok. destruct Hok as (_ & st & Hb & Hst & Hacc).
    destruct (chunk_bounds_range _ _ Hn HT HT1 _ st e Hi Hb). exists st. done.
  - intros Hpc. rewrite Hpc, Nat2Z.id in Hok. destruct Hok as (_ & st & Hb & Hst & Hslot).
    destruct (chunk_bounds_range _ _ Hn HT HT1 _ st e Hi Hb). exists st. done.
Qed.

Lemma worker_loop_invariant_witness :
  size_val (size [1; 2; 3; 4]) /\ size_val 2 /\ 1 <= 2 /\
  forall c k t i e, reachable Reduce [1; 2; 3; 4] 2 c -> c_threads c !! k = Some t ->
    (forall local_sum, t_pc t = WLoop i e local_sum ->
       exists st, chunk_bounds (size [1; 2; 3; 4]) 2 (Z.of_nat k) = Ok (st, e) /\
                  st <= i <= e /\ e <= size [1; 2; 3; 4] /\
                  local_sum = wrap_int (range_sum [1; 2; 3; 4] st i)) /\
    (t_pc t = WSlotLoop i e ->
       exists st, chunk_bounds (size [1; 2; 3; 4]) 2 (Z.of_nat k) = Ok (st, e) /\
                  st <= i <= e /\ e <= size [1; 2; 3; 4] /\
                  c_partial c !! k = Some (wrap_int (range_sum [1; 2; 3; 4] st i))).
Proof.
  assert (H1 : size_val (size [1; 2; 3; 4])) by size_vals.
  assert (H2 : size_val 2) by size_vals.
  assert (H3 : 1 <= 2) by lia.
  split; [exact H1|]. split; [exact H2|]. split; [exact H3|].
  exact (worker_loop_invariant Reduce [1; 2; 3; 4] 2 H1 H2 H3).
Defined.

(** ** More threads than elements *)

Lemma main_step_threads s T c c' :
  main_step s T c = Some c' ->
  c_threads c' = c_threads c \/
  exists i, c_threads c' = c_threads c ++ [{| t_idx := i; t_pc := WEntry |}].
Proof.
  destruct s; simpl;
    unfold main_lock, main_atomic, main_reduce, spawn_join, spawn;
    intros Hstep; repeat case_match; try done; injection Hstep as <-; simpl; eauto.
Qed.

(** A step moves the last worker on by at most one element. *)
Lemma position_step s arr T c who c' :
  size_val (size arr) -> size_val T -> 0 < size arr < T ->
  invariant s arr T c -> step s T c who = Some c' ->
  position (Z.to_nat (T - 1)) c <= position (Z.to_nat (T - 1)) c'
    <= position (Z.to_nat (T - 1)) c + 1.
Proof.
  intros Hn HT HnT Hc Hstep.
  assert (HT1 : 1 <= T) by lia.
  pose proof (step_frame s T c who c' Hstep) as Harr'.
  pose proof (inv_arr _ _ _ _ Hc) as Harr.
  pose proof (inv_fault _ _ _ _ (step_invariant s arr T Hn HT HT1 c who c' Hc Hstep)) as Hf.
  unfold step in Hstep. rewrite (inv_fault _ _ _ _ Hc) in Hstep.
  remember (Z.to_nat (T - 1)) as kl eqn:Hkl.
  unfold position. rewrite Harr', Harr. destruct who as [|k0].
  - destruct (main_step_threads s T c c' Hstep) as [->|[i ->]]; [lia|].
    destruct (c_threads c !! kl) as [t|] eqn:Hk.
    + rewrite (lookup_app_l_Some _ _ _ _ Hk). lia.
    + apply lookup_ge_None in Hk.
      destruct (decide (kl = length (c_threads c))) as [->|Hne].
      * rewrite list_lookup_middle by done. simpl. lia.
      * rewrite lookup_ge_None_2; [lia|]. rewrite length_app. simpl. lia.
  - destruct (c_threads c !! k0) as [t|] eqn:Hk; [|done].
    destruct (inv_threads _ _ _ _ Hc k0 t Hk) as [_ Hok]. unfold pc_ok in Hok.
    destruct (inv_idx s arr T c k0 t Hc Hk) as [Hidx Hi].
    pose proof (lookup_lt_Some _ _ _ Hk) as Hlt.
    assert (Hlast : k0 = kl ->
              chunk_bounds (size arr) T (t_idx t) = Ok (0, size arr)).
    { intros ->. rewrite Hidx, Hkl, few_elements_bounds by (done || lia).
      by destruct (Z.eqb_spec (Z.of_nat (Z.to_nat (T - 1))) (T - 1)); [|lia]. }
    assert (Hloop : forall i e st, chunk_bounds (size arr) T (t_idx t) = Ok (st, e) ->
              st <= i -> i < e -> wrap_size (i + 1) = i + 1).
    { intros i e st Hb H1 H2.
      by destruct (read_next arr T Hn HT HT1 _ st e i Hi Hb H1 H2) as (x & _ & Hw & _). }
    assert (Hshape : exists p,
              c_threads c' = <[k0 := {| t_idx := t_idx t; t_pc := p |}]> (c_threads c) /\
              (k0 = kl -> reached (size arr) (t_pc t) <= reached (size arr) p
                          <= reached (size arr) (t_pc t) + 1)).
    { destruct s; simpl in Hstep;
        unfold thread_sum_lock, thread_sum_atomic, thread_sum_reduce in Hstep;
        destruct (t_pc t) eqn:Hpc; try done;
        repeat case_match; try done;
        injection Hstep as <-; simpl in Hf; try done;
        (eexists; split; [reflexivity|]); intros Heq; specialize (Hlast Heq); simpl;
        repeat match goal with
          | H : (_ <? _) = true |- _ => apply Z.ltb_lt in H
          | H : (_ <? _) = false |- _ => apply Z.ltb_ge in H
          end;
        rewrite ?Harr in *;
        try (destruct Hok as (_ & st & Hb & Hst & _); rewrite Hb in Hlast;
             injection Hlast as -> ->);
        try (rewrite (Hloop _ _ _ Hb) by lia);
        try lia;
        try (match goal with
             | H1 : chunk_bounds _ _ _ = Ok (?z, ?z0) |- _ =>
                 rewrite H1 in Hlast; injection Hlast as -> ->
             end; lia). }
    destruct Hshape as (p & -> & Hp).
    destruct (decide (k0 = kl)) as [Heq|Hne].
    + specialize (Hp Heq). subst k0. by rewrite list_lookup_insert_eq, Hk.
    + by rewrite list_lookup_insert_ne; [lia|].
Qed.

(** On the way from one position to a later one the last worker stands at
    every position in between. *)
Lemma position_between s arr T sched :
  size_val (size arr) -> size_val T -> 0 < size arr < T ->
  forall c x, invariant s arr T c ->
    position (Z.to_nat (T - 1)) c <= x <= position (Z.to_nat (T - 1)) (run s T sched c) ->
    exists sched', position (Z.to_nat (T - 1)) (run s T sched' c) = x.
Proof.
  intros Hn HT HnT. induction sched as [|who sched IH]; intros c x Hc Hx.
  - exists []. simpl in *. lia.
  - simpl in Hx. destruct (step s T c who) as [c'|] eqn:Hstep; simpl in Hx.
    + pose proof (position_step s arr T c who c' Hn HT HnT Hc Hstep) as Hp.
      destruct (Z.eq_dec x (position (Z.to_nat (T - 1)) c)) as [->|Hne];
        [by exists []|].
      destruct (IH c' x) as [sched' Hs'];
        [eapply step_invariant; [done|done|lia|done..]|lia|].
      exists (who :: sched'). simpl. by rewrite Hstep.
    + by apply IH.
Qed.

(** With more threads than elements, every element is read by the last
    worker in some execution. *)
Lemma last_worker_reads s arr T x :
  size_val (size arr) -> size_val T -> 0 < size arr < T -> 0 <= x < size arr ->
  exists c t, reachable s arr T c /\
    c_threads c !! Z.to_nat (T - 1) = Some t /\ next_read (t_pc t) = Some x.
Proof.
  intros Hn HT HnT Hx. assert (HT1 : 1 <= T) by lia.
  pose proof (invariant_init s arr T HT1) as H0.
  destruct (completion s arr T Hn HT HT1 (init arr) H0) as [sched Hout].
  set (cf := run s T sched (init arr)) in *.
  assert (Hcf : invariant s arr T cf) by by apply run_invariant.
  assert (Hv : exists v, c_main cf = MReturn v).
  { unfold outcome in Hout. rewrite (inv_fault _ _ _ _ Hcf) in Hout.
    destruct (c_main cf); try done. eauto. }
  destruct Hv as [v Hv].
  assert (Hlen : Z.of_nat (length (c_threads cf)) = T)
    by by apply (returned_count s arr T sched Hn HT HT1 (init arr) H0) with v.
  destruct (lookup_lt_is_Some_2 (c_threads cf) (Z.to_nat (T - 1))) as [tf Htf]; [lia|].
  assert (Hdone : t_pc tf = WDone).
  { apply (joined_run s arr T sched Hn HT HT1 (init arr) H0) with v (Z.to_nat (T - 1));
      done. }
  assert (Hpf : position (Z.to_nat (T - 1)) cf = size arr).
  { unfold position. rewrite Htf, Hdone. simpl. by rewrite (inv_arr _ _ _ _ Hcf). }
  destruct (position_between s arr T sched Hn HT HnT (init arr) x H0) as [sched' Hp].
  { fold cf. rewrite Hpf. unfold position. simpl. lia. }
  set (c := run s T sched' (init arr)) in *.
  assert (Hc : invariant s arr T c) by by apply run_invariant.
  unfold position in Hp. rewrite (inv_arr _ _ _ _ Hc) in Hp.
  destruct (c_threads c !! Z.to_nat (T - 1)) as [t|] eqn:Hk; [|lia].
  exists c, t. split_and!; [by exists sched'|done|].
  destruct (inv_threads _ _ _ _ Hc _ t Hk) as [Hidx Hok]. unfold pc_ok in Hok.
  assert (Hb : chunk_bounds (size arr) T (t_idx t) = Ok (0, size arr)).
  { rewrite Hidx, few_elements_bounds by (done || lia).
    by destruct (Z.eqb_spec (Z.of_nat (Z.to_nat (T - 1))) (T - 1)); [|lia]. }
  destruct (t_pc t) as [|i e acc| | | | | |i e|]; simpl in Hp; try lia; subst i;
    destruct Hok as (_ & st & Hb' & _); rewrite Hb in Hb'; injection Hb' as <- <-;
    simpl; by destruct (Z.ltb_spec x (size arr)); [|lia].
Qed.

(** C10: when the thread count exceeds the array length ([T > n], [n > 0])
    the chunk size [n / T] is [0], every worker [i < T - 1] gets the empty
    chunk [[0, 0)] and the last worker gets [[0, n)].  On the machine: only
    the last worker ever reads an element, and each of the [n] elements is
    read by it in some execution; in its loop its accumulator is the
    wrapped sum of the elements before the loop variable; the local sum a
    worker is about to add, or has left in its slot, is [0] for the others
    and the wrapped sum of the whole array for the last; and every schedule
    can be continued until the strategy returns that sum. *)
Theorem more_threads_than_elements (arr : list Z) (T : Z) :
  size_val (size arr) -> size_val T -> 0 < size arr < T ->
  size arr / T = 0 /\
  (forall i, 0 <= i < T - 1 -> chunk_bounds (size arr) T i = Ok (0, 0)) /\
  chunk_bounds (size arr) T (T - 1) = Ok (0, size arr) /\
  (forall i, 0 <= i < T - 1 -> local_sum_of arr T i = 0) /\
  local_sum_of arr T (T - 1) = wrap_int (sum_of arr) /\
  (forall s c k t i, reachable s arr T c -> c_threads c !! k = Some t ->
     next_read (t_pc t) = Some i -> Z.of_nat k = T - 1) /\
  (forall s x, 0 <= x < size arr ->
     exists c t, reachable s arr T c /\
       c_threads c !! Z.to_nat (T - 1) = Some t /\ next_read (t_pc t) = Some x) /\
  (forall s c t i e, reachable s arr T c -> c_threads c !! Z.to_nat (T - 1) = Some t ->
     (forall local_sum, t_pc t = WLoop i e local_sum ->
        e = size arr /\ 0 <= i <= size arr /\ local_sum = wrap_int (range_sum arr 0 i)) /\
     (t_pc t = WSlotLoop i e ->
        e = size arr /\ 0 <= i <= size arr /\
        c_partial c !! Z.to_nat (T - 1) = Some (wrap_int (range_sum arr 0 i)))) /\
  (forall s c k t v, reachable s arr T c -> c_threads c !! k = Some t ->
     t_pc t = WAcquire v \/ t_pc t = WLoad v \/ t_pc t = WFetchAdd v ->
     v = if Z.of_nat k =? T - 1 then wrap_int (sum_of arr) else 0) /\
  (forall c k t, reachable Reduce arr T c -> c_threads c !! k = Some t ->
     t_pc t = WDone ->
     c_partial c !! k = Some (if Z.of_nat k =? T - 1 then wrap_int (sum_of arr) else 0)) /\
  (forall s sched, exists more,
     multi_thread_sum s arr T (sched ++ more) = Some (Ok (wrap_int (sum_of arr)))).
Proof.
  intros Hn HT HnT. assert (HT1 : 1 <= T) by lia.
  assert (Hlow : forall i, 0 <= i < T - 1 -> chunk_bounds (size arr) T i = Ok (0, 0)).
  { intros i Hi. rewrite few_elements_bounds by (done || lia).
    by destruct (Z.eqb_spec i (T - 1)); [lia|]. }
  assert (Hlast : chunk_bounds (size arr) T (T - 1) = Ok (0, size arr)).
  { rewrite few_elements_bounds by (done || lia). by rewrite Z.eqb_refl. }
  assert (Hlocal : forall i, 0 <= i < T ->
            local_sum_of arr T i = if i =? T - 1 then wrap_int (sum_of arr) else 0).
  { intros i Hi. unfold local_sum_of, chunk_total.
    destruct (Z.eqb_spec i (T - 1)) as [->|Hne].
    - by rewrite Hlast, range_sum_all.
    - rewrite Hlow by lia. by rewrite range_sum_empty. }
  assert (Hinv : forall s c k t, reachable s arr T c -> c_threads c !! k = Some t ->
            invariant s arr T c /\ 0 <= Z.of_nat k < T).
  { intros s c k t Hc Hk. apply (reachable_invariant s arr T Hn HT HT1) in Hc.
    split; [done|]. destruct (inv_idx s arr T c k t Hc Hk). lia. }
  split_and!; try done.
  - apply Z.div_small. lia.
  - intros i Hi. rewrite Hlocal by lia. by destruct (Z.eqb_spec i (T - 1)); [lia|].
  - rewrite Hlocal by lia. by rewrite Z.eqb_refl.
  - intros s c k t i Hc Hk Hr.
    destruct (reachable_read s arr T c k t i Hn HT HT1 Hc Hk Hr)
      as [Hi (st & e & Hb & Hx)].
    destruct (Z.eq_dec (Z.of_nat k) (T - 1)) as [|Hne]; [done|].
    rewrite Hlow in Hb by lia. injection Hb as <- <-. lia.
  - intros s x Hx. by apply last_worker_reads.
  - intros s c t i e Hc Hk. destruct (Hinv s c _ t Hc Hk) as [Hi _].
    destruct (inv_threads _ _ _ _ Hi _ t Hk) as [Hidx Hok]. unfold pc_ok in Hok.
    rewrite Hidx, Z2Nat.id, Hlast in Hok by lia. split.
    + intros acc Hpc. rewrite Hpc in Hok.
      destruct Hok as (_ & st & [= <- <-] & Hst & Hacc). done.
    + intros Hpc. rewrite Hpc in Hok.
      destruct Hok as (_ & st & [= <- <-] & Hst & Hslot).
      replace (Z.to_nat (T - 1)) with (Z.to_nat (Z.of_nat (Z.to_nat (T - 1)))) by lia.
      rewrite Z2Nat.id by lia. done.
  - intros s c k t v Hc Hk Hpc. destruct (Hinv s c k t Hc Hk) as [Hi Hlt].
    rewrite <- Hlocal by done. by eapply commit_value.
  - intros c k t Hc Hk Hpc. destruct (Hinv Reduce c k t Hc Hk) as [Hi Hlt].
    rewrite <- Hlocal by done. by eapply slot_value.
  - intros s sched. by apply multi_thread_sum_spec.
Qed.

Lemma more_threads_than_elements_witness :
  size_val (size [1; 2; 3]) /\ size_val 8 /\ 0 < size [1; 2; 3] < 8 /\
  size [1; 2; 3] / 8 = 0 /\
  (forall i, 0 <= i < 8 - 1 -> chunk_bounds (size [1; 2; 3]) 8 i = Ok (0, 0)) /\
  chunk_bounds (size [1; 2; 3]) 8 (8 - 1) = Ok (0, size [1; 2; 3]) /\
  (forall i, 0 <= i < 8 - 1 -> local_sum_of [1; 2; 3] 8 i = 0) /\
  local_sum_of [1; 2; 3] 8 (8 - 1) = wrap_int (sum_of [1; 2; 3]) /\
  (forall s c k t i, reachable s [1; 2; 3] 8 c -> c_threads c !! k = Some t ->
     next_read (t_pc t) = Some i -> Z.of_nat k = 8 - 1) /\
  (forall s x, 0 <= x < size [1; 2; 3] ->
     exists c t, reachable s [1; 2; 3] 8 c /\
       c_threads c !! Z.to_nat (8 - 1) = Some t /\ next_read (t_pc t) = Some x) /\
  (forall s c t i e, reachable s [1; 2; 3] 8 c ->
     c_threads c !! Z.to_nat (8 - 1) = Some t ->
     (forall local_sum, t_pc t = WLoop i e local_sum ->
        e = size [1; 2; 3] /\ 0 <= i <= size [1; 2; 3] /\
        local_sum = wrap_int (range_sum [1; 2; 3] 0 i)) /\
     (t_pc t = WSlotLoop i e ->
        e = size [1; 2; 3] /\ 0 <= i <= size [1; 2; 3] /\
        c_partial c !! Z.to_nat (8 - 1) = Some (wrap_int (range_sum [1; 2; 3] 0 i)))) /\
  (forall s c k t v, reachable s [1; 2; 3] 8 c -> c_threads c !! k = Some t ->
     t_pc t = WAcquire v \/ t_pc t = WLoad v \/ t_pc t = WFetchAdd v ->
     v = if Z.of_nat k =? 8 - 1 then wrap_int (sum_of [1; 2; 3]) else 0) /\
  (forall c k t, reachable Reduce [1; 2; 3] 8 c -> c_threads c !! k = Some t ->
     t_pc t = WDone ->
     c_partial c !! k
       = Some (if Z.of_nat k =? 8 - 1 then wrap_int (sum_of [1; 2; 3]) else 0)) /\
  (forall s sched, exists more,
     multi_thread_sum s [1; 2; 3] 8 (sched ++ more)
       = Some (Ok (wrap_int (sum_of [1; 2; 3])))).
Proof.
  assert (H1 : size_val (size [1; 2; 3])) by size_vals.
  assert (H2 : size_val 8) by size_vals.
  assert (H3 : 0 < size [1; 2; 3] < 8) by (unfold size; simpl; lia).
  split; [exact H1|]. split; [exact H2|]. split; [exact H3|].
  exact (more_threads_than_elements [1; 2; 3] 8 H1 H2 H3).
Defined.
